(** * ts-spreadsheet: dependency compiler and row evaluator

    A shallow embedding of the engine of the library (the current engine
    module with [compileExecutionOrder], [evaluateRow] and [processRows],
    and the earlier variant kept in [src/engine.ts]) together with the
    properties stated for it.

    Modelling choices.
    - JavaScript objects used as string-keyed records (the template, a row,
      the inputs) are finite maps [gmap string _]; the two [Set]s of the
      compiler are [gset string].  Column names are ordinary property names.
    - Exceptions are an explicit outcome: [Return], [Throw] or, for the
      recursive [visit], [OutOfFuel] (shown never to happen).
    - Rows and inputs are mutable objects; they live in a heap of objects
      and are passed by reference, so that aliasing is visible.
    - A [number] is represented by an integer: the engine performs no
      arithmetic on cell values, only formulas do. *)

From Stdlib Require Import ZArith Lia Ascii.
From stdpp Require Import base option list relations gmap strings pretty sets.

Local Open Scope string_scope.
Local Open Scope list_scope.
Local Open Scope nat_scope.

(** ** Values, schemas and templates (types module) *)

(** [CellType = number | string | boolean]; a property that is absent reads
    as [undefined]; the earlier engine stores the object literal
    [{ evaluatedValue: result }], an immutable one-field record. *)
Inductive value : Type :=
  | VNumber (n : Z)
  | VString (s : string)
  | VBoolean (b : bool)
  | VUndefined
  | VCellState (evaluatedValue : value).

Inductive TypeName : Type := TNumber | TString | TBoolean.

Record CellSchema : Type := { name : string; type : TypeName }.

(** [RowState] (complete or [Partial]) and [TypedInputs] are records keyed by
    name. *)
Abbreviation RowState := (gmap string value).
Abbreviation TypedInputs := (gmap string value).

(** What a formula reads through its context argument: the previous row
    ([None] is [null]), the current, still partial, row and the inputs. *)
Record FormulaContext : Type := {
  prevRow : option RowState;
  currRow : RowState;
  inputs : TypedInputs
}.

(** Errors that can be thrown. [Thrown] stands for anything else a
    caller-supplied formula may throw. *)
Inductive exn : Type :=
  | CircularDependencyError (message : string)
  | TypeError
  | Thrown (payload : string).

Record CellDefinition : Type := {
  cell_type : TypeName;
  formula : FormulaContext → exn + value;
  currRowDependencies : list string
}.

Abbreviation RowTemplate := (gmap string CellDefinition).

(** ** Outcomes and [for ... of] loops *)

Inductive outcome (A : Type) : Type :=
  | Return (a : A)
  | Throw (e : exn)
  | OutOfFuel.
Arguments Return {A} a.
Arguments Throw {A} e.
Arguments OutOfFuel {A}.

(** [for (const x of xs) body(x)] over a threaded state: the first body that
    does not complete normally ends the loop. *)
Fixpoint for_of {A S : Type} (body : A → S → outcome S) (xs : list A) (s : S)
  : outcome S :=
  match xs with
  | [] => Return s
  | x :: xs' =>
      match body x s with
      | Return s' => for_of body xs' s'
      | Throw e => Throw e
      | OutOfFuel => OutOfFuel
      end
  end.

(** ** compileExecutionOrder *)

(** The three locals captured by the inner function [visit]. *)
Record visit_state : Type := {
  executionOrder : list string;
  visited : gset string;
  visiting : gset string
}.

Definition circular_message (cellName : string) : string :=
  "Circular dependency detected involving " +:+ cellName.

(** [template[cellName]] is [undefined] for a name without a definition, and
    reading [currRowDependencies] of it is a [TypeError]. *)
Fixpoint visit (template : RowTemplate) (fuel : nat) (cellName : string)
    (st : visit_state) : outcome visit_state :=
  match fuel with
  | O => OutOfFuel
  | S fuel' =>
      if decide (cellName ∈ visiting st) then
        Throw (CircularDependencyError (circular_message cellName))
      else if decide (cellName ∈ visited st) then Return st
      else
        let st1 := {| executionOrder := executionOrder st;
                      visited := visited st;
                      visiting := {[cellName]} ∪ visiting st |} in
        match template !! cellName with
        | None => Throw TypeError
        | Some cellDef =>
            match for_of (visit template fuel') (currRowDependencies cellDef) st1 with
            | Return st2 =>
                Return {| executionOrder := executionOrder st2 ++ [cellName];
                          visited := {[cellName]} ∪ visited st2;
                          visiting := visiting st2 ∖ {[cellName]} |}
            | Throw e => Throw e
            | OutOfFuel => OutOfFuel
            end
        end
  end.

Definition visit_init : visit_state :=
  {| executionOrder := []; visited := ∅; visiting := ∅ |}.

(** The recursion of [visit] is at most one deeper than the number of
    definitions of the template. *)
Definition visit_fuel (template : RowTemplate) : nat := S (size template).

Definition visit_root (template : RowTemplate) (cell : CellSchema)
    (st : visit_state) : outcome visit_state :=
  if decide (name cell ∈ visited st) then Return st
  else visit template (visit_fuel template) (name cell) st.

Definition compileExecutionOrder (template : RowTemplate)
    (cellSchema : list CellSchema) : outcome (list string) :=
  match for_of (visit_root template) cellSchema visit_init with
  | Return st => Return (executionOrder st)
  | Throw e => Throw e
  | OutOfFuel => OutOfFuel
  end.

(** ** The heap of row and input objects *)

(** Objects are allocated at the end of the heap; a reference is an index.
    Every reference held by the program points into the heap, so the update
    of a missing index (which leaves a list unchanged) never arises from the
    engine's own allocations. *)
Abbreviation object := (gmap string value).
Abbreviation loc := nat.

(** The object literal [{ prevRow: prevRowState, currRow: rowState, inputs }]
    built by [evaluateRow]: three references. *)
Record Context : Type := {
  ctx_prevRow : option loc;
  ctx_currRow : loc;
  ctx_inputs : loc
}.

(** What a formula finds behind the references of its context when it is
    called in heap [h]. *)
Definition read_context (h : list object) (context : Context) : FormulaContext :=
  {| prevRow := (λ l, h !!! l) <$> ctx_prevRow context;
     currRow := h !!! ctx_currRow context;
     inputs := h !!! ctx_inputs context |}.

(** One invocation [cellDef.formula(context)]: the column, the context
    object and what it held at the time of the call. *)
Record formula_call : Type := {
  call_cell : string;
  call_context : Context;
  call_args : FormulaContext
}.

(** The state of the program: the heap, and (ghost) the history of formula
    invocations, which no computation reads. *)
Record state : Type := {
  heap : list object;
  formula_calls : list formula_call
}.

Definition alloc (o : object) (σ : state) : state :=
  {| heap := heap σ ++ [o]; formula_calls := formula_calls σ |}.

(** [obj[key] = v] for the object at [l], for a [key] that is stored as an
    own property: every name but ["__proto__"], whose assignment goes to the
    prototype setter instead. Statements about the keys a row holds exclude
    that name. *)
Definition set_property (l : loc) (key : string) (v : value) (σ : state) : state :=
  {| heap := <[l := <[key := v]> (heap σ !!! l)]> (heap σ);
     formula_calls := formula_calls σ |}.

Definition record_call (cellName : string) (context : Context) (σ : state) : state :=
  {| heap := heap σ;
     formula_calls := formula_calls σ ++
       [{| call_cell := cellName; call_context := context;
           call_args := read_context (heap σ) context |}] |}.

(** ** evaluateRow and processRows (current engine) *)

Fixpoint evaluateRow_loop (template : RowTemplate) (context : Context)
    (rowState : loc) (executionOrder : list string) (σ : state)
  : outcome unit * state :=
  match executionOrder with
  | [] => (Return tt, σ)
  | cellName :: rest =>
      match template !! cellName with
      | None => (Throw TypeError, σ)
      | Some cellDef =>
          let σ1 := record_call cellName context σ in
          match formula cellDef (read_context (heap σ) context) with
          | inl e => (Throw e, σ1)
          | inr result =>
              evaluateRow_loop template context rowState rest
                (set_property rowState cellName result σ1)
          end
      end
  end.

Definition evaluateRow (template : RowTemplate) (executionOrder : list string)
    (rowState : loc) (prevRowState : option loc) (inputs : loc) (σ : state)
  : outcome unit * state :=
  let context := {| ctx_prevRow := prevRowState; ctx_currRow := rowState;
                    ctx_inputs := inputs |} in
  evaluateRow_loop template context rowState executionOrder σ.

(** The loop [for (let i = 0; i < numRows; i++)], by the number of
    iterations that remain. *)
Fixpoint processRows_loop (template : RowTemplate) (executionOrder : list string)
    (inputs : loc) (remaining : nat) (rows : list loc) (prevRowState : option loc)
    (σ : state) : outcome (list loc) * state :=
  match remaining with
  | O => (Return rows, σ)
  | S remaining' =>
      let newRowState := length (heap σ) in
      match evaluateRow template executionOrder newRowState prevRowState inputs
              (alloc ∅ σ) with
      | (Return _, σ') =>
          processRows_loop template executionOrder inputs remaining'
            (rows ++ [newRowState]) (Some newRowState) σ'
      | (Throw e, σ') => (Throw e, σ')
      | (OutOfFuel, σ') => (OutOfFuel, σ')
      end
  end.

(** [numRows] is an integer; the loop runs [max 0 numRows] times. *)
Definition processRows (cellSchema : list CellSchema) (template : RowTemplate)
    (inputs : loc) (numRows : Z) (σ : state) : outcome (list loc) * state :=
  match compileExecutionOrder template cellSchema with
  | Return executionOrder =>
      processRows_loop template executionOrder inputs (Z.to_nat numRows) [] None σ
  | Throw e => (Throw e, σ)
  | OutOfFuel => (OutOfFuel, σ)
  end.

(** The returned array, read through its references. *)
Definition returned_rows (r : outcome (list loc) * state) : outcome (list object) :=
  match r with
  | (Return rows, σ) => Return ((λ l, heap σ !!! l) <$> rows)
  | (Throw e, _) => Throw e
  | (OutOfFuel, _) => OutOfFuel
  end.

(** ** The earlier engine, [src/engine.ts]

    Its [compileExecutionOrder] is the one above, word for word; its
    [evaluateRow] stores [{ evaluatedValue: result }]. *)
Module Legacy.

Fixpoint evaluateRow_loop (template : RowTemplate) (context : Context)
    (rowState : loc) (executionOrder : list string) (σ : state)
  : outcome unit * state :=
  match executionOrder with
  | [] => (Return tt, σ)
  | cellName :: rest =>
      match template !! cellName with
      | None => (Throw TypeError, σ)
      | Some cellDef =>
          let σ1 := record_call cellName context σ in
          match formula cellDef (read_context (heap σ) context) with
          | inl e => (Throw e, σ1)
          | inr result =>
              evaluateRow_loop template context rowState rest
                (set_property rowState cellName (VCellState result) σ1)
          end
      end
  end.

Definition evaluateRow (template : RowTemplate) (executionOrder : list string)
    (rowState : loc) (prevRowState : option loc) (inputs : loc) (σ : state)
  : outcome unit * state :=
  let context := {| ctx_prevRow := prevRowState; ctx_currRow := rowState;
                    ctx_inputs := inputs |} in
  evaluateRow_loop template context rowState executionOrder σ.

Fixpoint processRows_loop (template : RowTemplate) (executionOrder : list string)
    (inputs : loc) (remaining : nat) (rows : list loc) (prevRowState : option loc)
    (σ : state) : outcome (list loc) * state :=
  match remaining with
  | O => (Return rows, σ)
  | S remaining' =>
      let newRowState := length (heap σ) in
      match evaluateRow template executionOrder newRowState prevRowState inputs
              (alloc ∅ σ) with
      | (Return _, σ') =>
          processRows_loop template executionOrder inputs remaining'
            (rows ++ [newRowState]) (Some newRowState) σ'
      | (Throw e, σ') => (Throw e, σ')
      | (OutOfFuel, σ') => (OutOfFuel, σ')
      end
  end.

Definition processRows (schema : list CellSchema) (template : RowTemplate)
    (inputs : loc) (numRows : Z) (σ : state) : outcome (list loc) * state :=
  match compileExecutionOrder template schema with
  | Return executionOrder =>
      processRows_loop template executionOrder inputs (Z.to_nat numRows) [] None σ
  | Throw e => (Throw e, σ)
  | OutOfFuel => (OutOfFuel, σ)
  end.

End Legacy.

(** ** The common shape of the two engines

    Both [evaluateRow]s are the same loop up to what is stored under the
    column name; the loop is stated once over that choice so that the
    lemmas about it serve both. *)
Fixpoint evaluateRow_loop_with (store : value → value) (template : RowTemplate)
    (context : Context) (rowState : loc) (executionOrder : list string)
    (σ : state) : outcome unit * state :=
  match executionOrder with
  | [] => (Return tt, σ)
  | cellName :: rest =>
      match template !! cellName with
      | None => (Throw TypeError, σ)
      | Some cellDef =>
          let σ1 := record_call cellName context σ in
          match formula cellDef (read_context (heap σ) context) with
          | inl e => (Throw e, σ1)
          | inr result =>
              evaluateRow_loop_with store template context rowState rest
                (set_property rowState cellName (store result) σ1)
          end
      end
  end.

Fixpoint processRows_loop_with (store : value → value) (template : RowTemplate)
    (executionOrder : list string) (inputs : loc) (remaining : nat)
    (rows : list loc) (prevRowState : option loc) (σ : state)
  : outcome (list loc) * state :=
  match remaining with
  | O => (Return rows, σ)
  | S remaining' =>
      let newRowState := length (heap σ) in
      match evaluateRow_loop_with store template
              {| ctx_prevRow := prevRowState; ctx_currRow := newRowState;
                 ctx_inputs := inputs |}
              newRowState executionOrder (alloc ∅ σ) with
      | (Return _, σ') =>
          processRows_loop_with store template executionOrder inputs remaining'
            (rows ++ [newRowState]) (Some newRowState) σ'
      | (Throw e, σ') => (Throw e, σ')
      | (OutOfFuel, σ') => (OutOfFuel, σ')
      end
  end.

(** ** The dependency graph of a template *)

Definition cell_names (cellSchema : list CellSchema) : list string :=
  name <$> cellSchema.

(** [depends_on template c d]: [d] is listed in [c]'s [currRowDependencies]. *)
Definition depends_on (template : RowTemplate) (c d : string) : Prop :=
  ∃ cellDef, template !! c = Some cellDef ∧ d ∈ currRowDependencies cellDef.

(** Columns that a traversal started at the schema's columns can reach. *)
Definition reachable (template : RowTemplate) (cellSchema : list CellSchema)
    (x : string) : Prop :=
  ∃ root, root ∈ cell_names cellSchema ∧ rtc (depends_on template) root x.

(** [x] lies on a cycle of same-row dependencies (a self-dependency is a
    cycle of length one). *)
Definition on_cycle (template : RowTemplate) (x : string) : Prop :=
  tc (depends_on template) x x.

Definition cyclic (template : RowTemplate) (cellSchema : list CellSchema) : Prop :=
  ∃ x, reachable template cellSchema x ∧ on_cycle template x.

(** The type [RowTemplate<CSchema, ISchema>]: a definition for every column of
    the schema, whose dependencies are names of the schema
    ([Array<CellNames<CSchema>>]). *)
Definition well_typed (template : RowTemplate) (cellSchema : list CellSchema) : Prop :=
  ∀ c, c ∈ cell_names cellSchema →
    ∃ cellDef, template !! c = Some cellDef ∧
      ∀ d, d ∈ currRowDependencies cellDef → d ∈ cell_names cellSchema.

(** No formula of the template throws, whatever its context. *)
Definition formulas_succeed (template : RowTemplate) : Prop :=
  ∀ c cellDef ctx, template !! c = Some cellDef →
    ∃ v, formula cellDef ctx = inr v.

(** The invariant of the traversal between two calls of [visit]. *)
Record visit_inv (template : RowTemplate) (cellSchema : list CellSchema)
    (st : visit_state) : Prop := {
  inv_nodup : NoDup (executionOrder st);
  inv_visited : ∀ x, x ∈ visited st ↔ x ∈ executionOrder st;
  inv_disjoint : ∀ x, x ∈ visiting st → x ∉ visited st;
  inv_defined : ∀ x, x ∈ executionOrder st → is_Some (template !! x);
  inv_reachable : ∀ x, x ∈ executionOrder st → reachable template cellSchema x;
  inv_deps : ∀ x d j, executionOrder st !! j = Some x → depends_on template x d →
    ∃ i, i < j ∧ executionOrder st !! i = Some d
}.

(** What a completed [visit] leaves behind. *)
Definition visit_post (template : RowTemplate) (cellSchema : list CellSchema)
    (st st' : visit_state) : Prop :=
  visit_inv template cellSchema st' ∧ visiting st' = visiting st ∧
  executionOrder st `prefix_of` executionOrder st'.

(** ** Rows up to a change of the stored values, to compare two runs *)

Definition map_row (g : value → value) (row : object) : object := g <$> row.

Definition map_context (g : value → value) (ctx : FormulaContext) : FormulaContext :=
  {| prevRow := map_row g <$> prevRow ctx;
     currRow := map_row g (currRow ctx);
     inputs := inputs ctx |}.

Definition map_rows (g : value → value) (o : outcome (list object))
  : outcome (list object) :=
  match o with
  | Return rows => Return (map_row g <$> rows)
  | Throw e => Throw e
  | OutOfFuel => OutOfFuel
  end.

(** The formulas give the same result when the values of the rows they read
    are changed by [g]. *)
Definition insensitive (g : value → value) (template : RowTemplate) : Prop :=
  ∀ c cellDef ctx, template !! c = Some cellDef →
    formula cellDef (map_context g ctx) = formula cellDef ctx.

(** The case of interest: bare values against [{ evaluatedValue: v }]. *)
Definition wrap_row : object → object := map_row VCellState.
Definition wrap_rows : outcome (list object) → outcome (list object) :=
  map_rows VCellState.
Definition wrap_insensitive : RowTemplate → Prop := insensitive VCellState.

(** A row over exactly the given columns, all of whose values satisfy [P]. *)
Definition row_shape (P : value → Prop) (columns : list string) (row : object) : Prop :=
  dom row = list_to_set columns ∧ map_Forall (λ _ v, P v) row.

(** Values of the form [{ evaluatedValue: r }]. *)
Definition is_cell_state (v : value) : Prop := ∃ r, v = VCellState r.

(** The current row of a context is an object of the heap, and neither the
    previous row nor the inputs are that same object. *)
Definition own_row (context : Context) (h : list object) : Prop :=
  ctx_currRow context < length h ∧
  ctx_prevRow context ≠ Some (ctx_currRow context) ∧
  ctx_inputs context ≠ ctx_currRow context.

(** ** The basic example of the test suite and README *)

Module BasicExample.

Definition cellSchema : list CellSchema :=
  [ {| name := "a"; type := TNumber |}; {| name := "b"; type := TNumber |} ].

(** [prevRow.b + 1]; [b] is a number by the schema, other operands do not
    arise here. *)
Definition plus_one (v : value) : value :=
  match v with
  | VNumber n => VNumber (n + 1)
  | _ => VUndefined
  end.

Definition property (o : object) (key : string) : value :=
  default VUndefined (o !! key).

Definition template : RowTemplate :=
  {[ "a" := {| cell_type := TNumber;
               formula := λ ctx, inr (property (currRow ctx) "b");
               currRowDependencies := ["b"] |};
     "b" := {| cell_type := TNumber;
               formula := λ ctx,
                 match prevRow ctx with
                 | Some prev => inr (plus_one (property prev "b"))
                 | None => inr (property (inputs ctx) "initialValue")
                 end;
               currRowDependencies := [] |} ]}.

(** The caller's heap: the inputs object [{ initialValue: 5 }] at reference 0. *)
Definition initial : state :=
  {| heap := [ {[ "initialValue" := VNumber 5 ]} ]; formula_calls := [] |}.

End BasicExample.

(** A one-column template whose formula is the constant [1]. *)
Module ConstantExample.

Definition schema : list CellSchema := [ {| name := "a"; type := TNumber |} ].

Definition template : RowTemplate :=
  {[ "a" := {| cell_type := TNumber;
               formula := λ _, inr (VNumber 1);
               currRowDependencies := [] |} ]}.

Definition initial : state := {| heap := [ ∅ ]; formula_calls := [] |}.

End ConstantExample.

(** Two columns that read each other in the same row. *)
Module CycleExample.

Definition cellSchema : list CellSchema :=
  [ {| name := "a"; type := TNumber |}; {| name := "b"; type := TNumber |} ].

Definition template : RowTemplate :=
  {[ "a" := {| cell_type := TNumber;
               formula := λ ctx, inr (default VUndefined (currRow ctx !! "b"));
               currRowDependencies := ["b"] |};
     "b" := {| cell_type := TNumber;
               formula := λ ctx, inr (default VUndefined (currRow ctx !! "a"));
               currRowDependencies := ["a"] |} ]}.

End CycleExample.

(** The two engines return equal row sequences wherever neither throws. *)
Definition engines_return_equal_rows : Prop :=
  ∀ schema template inputs numRows σ rows1 rows2,
    returned_rows (Legacy.processRows schema template inputs numRows σ) = Return rows1 →
    returned_rows (processRows schema template inputs numRows σ) = Return rows2 →
    rows1 = rows2.

(** ** Orders *)

(** [d] and [c] both occur in [order], and every occurrence of [d] is at a
    strictly smaller index than every occurrence of [c]. *)
Definition strictly_before (order : list string) (d c : string) : Prop :=
  (∃ i, order !! i = Some d) ∧ (∃ j, order !! j = Some c) ∧
  ∀ i j, order !! i = Some d → order !! j = Some c → i < j.

Definition dependencies_first (template : RowTemplate) (order : list string) : Prop :=
  ∀ c d, c ∈ order → depends_on template c d → strictly_before order d c.

(** The names of a list in order of first occurrence, past those already
    [seen]; a list without repetition is its own list of first occurrences. *)
Fixpoint first_occurrences_from (seen : gset string) (names : list string)
  : list string :=
  match names with
  | [] => []
  | x :: names' =>
      if decide (x ∈ seen) then first_occurrences_from seen names'
      else x :: first_occurrences_from ({[x]} ∪ seen) names'
  end.

Definition first_occurrences (names : list string) : list string :=
  first_occurrences_from ∅ names.

(** Every column of the schema has a definition with no dependency. *)
Definition no_dependencies (template : RowTemplate) (cellSchema : list CellSchema)
  : Prop :=
  ∀ c, c ∈ cell_names cellSchema →
    ∃ cellDef, template !! c = Some cellDef ∧ currRowDependencies cellDef = [].

(** ** How the traversal may end abruptly *)

(** The error raised for a cycle: it names a reachable column that lies on
    a cycle. *)
Definition cycle_error (template : RowTemplate) (cellSchema : list CellSchema)
    (e : exn) : Prop :=
  ∃ y, e = CircularDependencyError (circular_message y) ∧
       reachable template cellSchema y ∧ on_cycle template y.

(** The error raised when a reachable name has no definition. *)
Definition undefined_error (template : RowTemplate) (cellSchema : list CellSchema)
    (e : exn) : Prop :=
  e = TypeError ∧ ∃ x, reachable template cellSchema x ∧ template !! x = None.

(** An outcome that, if it is not a normal completion, is one of the two
    errors above. *)
Definition ends_well {A : Type} (template : RowTemplate)
    (cellSchema : list CellSchema) (o : outcome A) : Prop :=
  match o with
  | Return _ => True
  | Throw e => cycle_error template cellSchema e ∨ undefined_error template cellSchema e
  | OutOfFuel => False
  end.

(** A column that lists a dependency for which the template has no
    definition. *)
Module MissingExample.

Definition cellSchema : list CellSchema := [ {| name := "a"; type := TNumber |} ].

Definition template : RowTemplate :=
  {[ "a" := {| cell_type := TNumber;
               formula := λ ctx, inr (default VUndefined (currRow ctx !! "x"));
               currRowDependencies := ["x"] |} ]}.

End MissingExample.

(** A column whose formula throws. *)
Module FailingExample.

Definition cellSchema : list CellSchema := [ {| name := "a"; type := TNumber |} ].

Definition template : RowTemplate :=
  {[ "a" := {| cell_type := TNumber;
               formula := λ _, inl (Thrown "invalid operand");
               currRowDependencies := [] |} ]}.

End FailingExample.

(** Every name that the traversal can reach has a definition. *)
Definition all_defined (template : RowTemplate) (cellSchema : list CellSchema) : Prop :=
  ∀ x, reachable template cellSchema x → is_Some (template !! x).

(** ** toCsv *)

(** The string ["\n"]. *)
Definition newline : string := String "010"%char "".

(** [elements.join(separator)] on an array of strings. *)
Definition join (elements : list string) (separator : string) : string :=
  String.concat separator elements.

(** [row[header]]: an own property, or [undefined] when the row has none of
    that name. A name that rows inherit from [Object.prototype] (see
    [Object_prototype_names]) reads as the inherited member instead when it
    is absent; statements about absent columns exclude those names. *)
Definition get (o : object) (key : string) : value :=
  default VUndefined (o !! key).

(** What [Array.prototype.join] makes of an element: the empty string for
    [undefined], its string conversion otherwise (decimal digits for an
    integer-valued number, ["[object Object]"] for an object). *)
Definition join_element (v : value) : string :=
  match v with
  | VNumber n => pretty n
  | VString s => s
  | VBoolean true => "true"
  | VBoolean false => "false"
  | VUndefined => ""
  | VCellState _ => "[object Object]"
  end.

(** [toCsv(cellSchema, rows)]: the header line, then one line per row with
    the values of the schema's columns in the schema's order. *)
Definition toCsv (cellSchema : list CellSchema) (rows : list loc) (σ : state)
  : string :=
  let headers := (λ cell, name cell) <$> cellSchema in
  join (join headers "," ::
        ((λ row, join ((λ header, join_element (get (heap σ !!! row) header))
                         <$> headers) ",") <$> rows))
       newline.

(** The number of occurrences of a character in a string. *)
Fixpoint occurrences (c : ascii) (s : string) : nat :=
  match s with
  | EmptyString => 0
  | String a s' => (if decide (a = c) then 1 else 0) + occurrences c s'
  end.

(** A string without comma and without line break. *)
Definition plain (s : string) : Prop :=
  occurrences ","%char s = 0 ∧ occurrences "010"%char s = 0.

(** A heap holding a single object, at reference 0. *)
Definition single (row : object) : state :=
  {| heap := [row]; formula_calls := [] |}.

(** ** The formula invocations of a run *)

(** The invocations recorded between the states [σ] and [σ']. *)
Definition calls_since (σ σ' : state) : list formula_call :=
  drop (length (formula_calls σ)) (formula_calls σ').

(** The formula of the call returned a value: it did not throw. *)
Definition call_returns (template : RowTemplate) (call : formula_call) : bool :=
  match template !! call_cell call with
  | Some cellDef =>
      match formula cellDef (call_args call) with
      | inr _ => true
      | inl _ => false
      end
  | None => true
  end.

(** No formula invoked between [σ] and [σ'] has failed. *)
Definition no_formula_fails (template : RowTemplate) (σ σ' : state) : Prop :=
  forallb (call_returns template) (calls_since σ σ') = true.

(** The names that every row inherits from [Object.prototype]. *)
Definition Object_prototype_names : list string :=
  [ "constructor"; "__proto__"; "hasOwnProperty"; "isPrototypeOf";
    "propertyIsEnumerable"; "toString"; "toLocaleString"; "valueOf";
    "__defineGetter__"; "__defineSetter__"; "__lookupGetter__"; "__lookupSetter__" ].

(** A column whose formula insists on a numeric input:
    [({ inputs }) => { if (typeof inputs.rate !== 'number') throw 'rate required';
                       return inputs.rate; }]. *)
Module GuardedExample.

Definition cellSchema : list CellSchema := [ {| name := "rate"; type := TNumber |} ].

Definition template : RowTemplate :=
  {[ "rate" := {| cell_type := TNumber;
                  formula := λ ctx,
                    match inputs ctx !! "rate" with
                    | Some (VNumber n) => inr (VNumber n)
                    | _ => inl (Thrown "rate required")
                    end;
                  currRowDependencies := [] |} ]}.

(** The inputs object [{ rate: 7 }] at reference 0. *)
Definition initial : state :=
  {| heap := [ {[ "rate" := VNumber 7 ]} ]; formula_calls := [] |}.

End GuardedExample.

(** The [month] column of the earlier engine's test suite:
    [({ prevRow }) => (prevRow?.month.evaluatedValue ?? 0) + 1]. *)
Module MonthExample.

Definition schema : list CellSchema := [ {| name := "month"; type := TNumber |} ].

(** [(v ?? 0) + 1]. *)
Definition or_zero_plus_one (v : value) : value :=
  match v with
  | VNumber n => VNumber (n + 1)
  | VString s => VString (s +:+ "1")
  | VBoolean true => VNumber 2
  | VBoolean false => VNumber 1
  | VUndefined => VNumber 1
  | VCellState _ => VString "[object Object]1"
  end.

(** Reading [evaluatedValue] of [undefined] is a [TypeError]; of a primitive
    it is [undefined]. *)
Definition template : RowTemplate :=
  {[ "month" := {| cell_type := TNumber;
                   formula := λ ctx,
                     match prevRow ctx with
                     | None => inr (VNumber 1)
                     | Some prev =>
                         match prev !! "month" with
                         | None => inl TypeError
                         | Some VUndefined => inl TypeError
                         | Some (VCellState v) => inr (or_zero_plus_one v)
                         | Some _ => inr (VNumber 1)
                         end
                     end;
                   currRowDependencies := [] |} ]}.

Definition initial : state := {| heap := [ ∅ ]; formula_calls := [] |}.

End MonthExample.

(** Three columns without dependencies, declared in the order [c], [a], [b]. *)
Module IndependentExample.

Definition cellSchema : list CellSchema :=
  [ {| name := "c"; type := TNumber |}; {| name := "a"; type := TString |};
    {| name := "b"; type := TBoolean |} ].

Definition template : RowTemplate :=
  {[ "a" := {| cell_type := TString;
               formula := λ _, inr (VString "x");
               currRowDependencies := [] |};
     "b" := {| cell_type := TBoolean;
               formula := λ _, inr (VBoolean true);
               currRowDependencies := [] |};
     "c" := {| cell_type := TNumber;
               formula := λ _, inr (VNumber 3);
               currRowDependencies := [] |} ]}.

End IndependentExample.

(** * Properties *)

(** ** Loops *)

Lemma for_of_app {A S : Type} (body : A → S → outcome S) xs ys s :
  for_of body (xs ++ ys) s =
    match for_of body xs s with
    | Return s' => for_of body ys s'
    | Throw e => Throw e
    | OutOfFuel => OutOfFuel
    end.
Proof.
  revert s. induction xs as [|x xs IH]; intros s; simpl; [done|].
  destruct (body x s); auto.
Qed.

(** ** The traversal keeps its invariant *)

Section traversal.
Context (template : RowTemplate) (cellSchema : list CellSchema).

Local Abbreviation inv := (visit_inv template cellSchema).
Local Abbreviation post := (visit_post template cellSchema).

Lemma visit_inv_init : inv visit_init.
Proof.
  split; simpl.
  - constructor.
  - intros x. set_solver.
  - set_solver.
  - intros x Hx. by apply elem_of_nil in Hx.
  - intros x Hx. by apply elem_of_nil in Hx.
  - intros x d j Hj. by rewrite lookup_nil in Hj.
Qed.

Lemma visit_post_refl st : inv st → post st st.
Proof. intros H. by split_and!. Qed.

Lemma visit_post_trans st1 st2 st3 : post st1 st2 → post st2 st3 → post st1 st3.
Proof.
  intros (_ & Hv1 & Hp1) (Hi & Hv2 & Hp2). split_and!; [done|congruence|].
  by etrans.
Qed.

Lemma visit_post_visited st st' x : inv st → post st st' → x ∈ visited st → x ∈ visited st'.
Proof.
  intros Hi (Hi' & _ & [ext Hext]) Hx.
  apply (inv_visited _ _ _ Hi'). rewrite Hext. apply elem_of_app. left.
  by apply (inv_visited _ _ _ Hi).
Qed.

Lemma reachable_step x d :
  reachable template cellSchema x → depends_on template x d →
  reachable template cellSchema d.
Proof. intros (r & Hr & Hrx) Hd. exists r. split; [done|]. by eapply rtc_r. Qed.

Lemma reachable_root c : c ∈ cell_names cellSchema → reachable template cellSchema c.
Proof. intros Hc. by exists c. Qed.

(** Entering a column: it joins [visiting]. *)
Lemma visit_inv_enter st c :
  inv st → c ∉ visited st →
  inv {| executionOrder := executionOrder st; visited := visited st;
         visiting := {[c]} ∪ visiting st |}.
Proof.
  intros [H1 H2 H3 H4 H5 H6] Hc. split; simpl; try done.
  intros x [->%elem_of_singleton|Hx]%elem_of_union; auto.
Qed.

(** Leaving a column whose dependencies have all been visited: it is
    appended to the order after them. *)
Lemma visit_inv_leave st c cellDef :
  inv st → c ∈ visiting st → template !! c = Some cellDef →
  reachable template cellSchema c →
  (∀ d, d ∈ currRowDependencies cellDef → d ∈ visited st) →
  inv {| executionOrder := executionOrder st ++ [c];
         visited := {[c]} ∪ visited st;
         visiting := visiting st ∖ {[c]} |}.
Proof.
  intros [H1 H2 H3 H4 H5 H6] Hc Hdef Hreach Hdeps.
  assert (c ∉ executionOrder st) as Hfresh.
  { intros Hin. apply (H3 c Hc). by apply H2. }
  split; simpl.
  - apply NoDup_app. split_and!; [done| |apply NoDup_singleton].
    intros x Hx ->%list_elem_of_singleton. done.
  - intros x. rewrite elem_of_union, elem_of_singleton, elem_of_app,
      list_elem_of_singleton, H2. tauto.
  - intros x [Hx Hne]%elem_of_difference. rewrite elem_of_union. intros [?|?].
    + done.
    + by apply (H3 x).
  - intros x [Hx| ->%list_elem_of_singleton]%elem_of_app; [by apply H4|by eexists].
  - intros x [Hx| ->%list_elem_of_singleton]%elem_of_app; [by apply H5|done].
  - intros x d j Hj Hd.
    destruct (decide (j < length (executionOrder st))) as [Hlt|Hge].
    + rewrite lookup_app_l in Hj by done.
      destruct (H6 x d j Hj Hd) as (i & Hi & Hid).
      exists i. split; [done|]. rewrite lookup_app_l; [done|lia].
    + rewrite lookup_app_r in Hj by lia.
      apply list_lookup_singleton_Some in Hj as [Hj0 ->].
      destruct Hd as (def' & Hdef' & Hd).
      assert (def' = cellDef) as -> by congruence.
      apply Hdeps, H2, list_elem_of_lookup in Hd as [i Hi].
      exists i. pose proof (lookup_lt_Some _ _ _ Hi).
      split; [lia|]. by rewrite lookup_app_l.
Qed.

(** A loop of visits, given what one visit guarantees. *)
Lemma for_of_visit_post {A : Type} (key : A → string)
    (body : A → visit_state → outcome visit_state) (xs : list A) :
  (∀ x st st', x ∈ xs → inv st → body x st = Return st' →
     post st st' ∧ key x ∈ visited st') →
  ∀ st st', inv st → for_of body xs st = Return st' →
    post st st' ∧ ∀ x, x ∈ xs → key x ∈ visited st'.
Proof.
  induction xs as [|x xs IH]; intros Hbody st st' Hinv Hrun; simpl in Hrun.
  - simplify_eq. split; [by apply visit_post_refl|].
    intros x Hx. by apply elem_of_nil in Hx.
  - destruct (body x st) as [st1| |] eqn:Hx; try done.
    destruct (Hbody x st st1) as [Hp1 Hk1]; [left|done|done|].
    destruct (IH (λ y s s' Hy, Hbody y s s' (list_elem_of_further _ _ _ Hy))
                st1 st' (proj1 Hp1) Hrun) as [Hp2 Hk2].
    split; [by eapply visit_post_trans|].
    intros y [->|Hy]%elem_of_cons; [|by auto].
    eapply visit_post_visited; [apply Hp1|done..].
Qed.

Lemma visit_Return fuel : ∀ c st st',
  inv st → reachable template cellSchema c →
  visit template fuel c st = Return st' →
  post st st' ∧ c ∈ visited st'.
Proof.
  induction fuel as [|fuel IH]; intros c st st' Hinv Hreach Hrun; simpl in Hrun; [done|].
  destruct (decide (c ∈ visiting st)) as [|Hnvisiting]; [done|].
  destruct (decide (c ∈ visited st)) as [Hvis|Hnvis].
  { simplify_eq. split; [by apply visit_post_refl|done]. }
  destruct (template !! c) as [cellDef|] eqn:Hdef; [|done].
  match type of Hrun with context [for_of ?b ?l ?s] =>
    destruct (for_of b l s) as [st2| |] eqn:Hloop; try done;
    pose proof (visit_inv_enter st c Hinv Hnvis) as Hinv1
  end.
  simplify_eq.
  destruct (for_of_visit_post id (visit template fuel) (currRowDependencies cellDef))
    with (st := {| executionOrder := executionOrder st; visited := visited st;
                   visiting := {[c]} ∪ visiting st |}) (st' := st2)
    as [(Hinv2 & Hving & Hpre) Hdeps]; [|done|done|].
  { intros d s s' Hd Hs Hr. apply IH; [done| |done].
    eapply reachable_step; [done|]. by exists cellDef. }
  simpl in *.
  split; [|simpl; apply elem_of_union_l; by apply elem_of_singleton].
  split_and!; simpl.
  - apply visit_inv_leave with cellDef; try done.
    rewrite Hving. apply elem_of_union_l. by apply elem_of_singleton.
  - rewrite Hving. apply leibniz_equiv. intros x.
    rewrite elem_of_difference, elem_of_union, elem_of_singleton.
    split; [tauto|]. intros Hx. split; [by right|]. by intros ->.
  - etrans; [done|]. by apply prefix_app_r.
Qed.

Lemma visit_root_Return cell st st' :
  inv st → cell ∈ cellSchema → visit_root template cell st = Return st' →
  post st st' ∧ name cell ∈ visited st'.
Proof.
  intros Hinv Hcell Hrun. unfold visit_root in Hrun.
  destruct (decide (name cell ∈ visited st)) as [Hv|Hv].
  - simplify_eq. split; [by apply visit_post_refl|done].
  - eapply visit_Return; [done| |done].
    apply reachable_root. by apply list_elem_of_fmap_2.
Qed.

End traversal.

(** ** Abrupt ends of the traversal: only the two errors, never a lack of fuel *)

Section traversal_errors.
Context (template : RowTemplate) (cellSchema : list CellSchema).

Local Abbreviation inv := (visit_inv template cellSchema).
Local Abbreviation post := (visit_post template cellSchema).
Local Abbreviation dep := (depends_on template).

Lemma for_of_visit_ends_well {A : Type}
    (body : A → visit_state → outcome visit_state) (V : gset string) (xs : list A) :
  (∀ x st st', x ∈ xs → inv st → body x st = Return st' → post st st') →
  (∀ x st, x ∈ xs → inv st → visiting st = V →
     ends_well template cellSchema (body x st)) →
  ∀ st, inv st → visiting st = V →
    ends_well template cellSchema (for_of body xs st).
Proof.
  induction xs as [|x xs IH]; intros Hret Hend st Hinv HV; simpl; [done|].
  pose proof (Hend x st (list_elem_of_here _ _) Hinv HV) as Hx.
  destruct (body x st) as [st1| |] eqn:Hrun; [|done..].
  destruct (Hret x st st1 (list_elem_of_here _ _) Hinv Hrun) as (Hinv1 & HV1 & _).
  apply IH; [| |done|congruence].
  - intros y s s' Hy. apply Hret. by right.
  - intros y s Hy. apply Hend. by right.
Qed.

Lemma visit_ends_well fuel : ∀ c st,
  inv st → reachable template cellSchema c →
  (∀ v, v ∈ visiting st → tc dep v c) →
  size (dom template ∖ visiting st) < fuel →
  ends_well template cellSchema (visit template fuel c st).
Proof.
  induction fuel as [|fuel IH]; intros c st Hinv Hreach Hpath Hfuel; simpl; [lia|].
  destruct (decide (c ∈ visiting st)) as [Hving|Hnving].
  { left. exists c. split_and!; [done..|]. by apply Hpath. }
  destruct (decide (c ∈ visited st)) as [|Hnvis]; [done|].
  destruct (template !! c) as [cellDef|] eqn:Hdef;
    [|right; split; [done|]; by exists c].
  pose proof (visit_inv_enter _ _ st c Hinv Hnvis) as Hinv1.
  match goal with |- context [for_of ?b ?l ?s] =>
    assert (ends_well template cellSchema (for_of b l s)) as Hloop
  end.
  { apply for_of_visit_ends_well with (V := {[c]} ∪ visiting st); [| |done..].
    - intros d s s' Hd Hs Hr.
      eapply visit_Return; [done| |done].
      eapply reachable_step; [done|]. by exists cellDef.
    - intros d s Hd Hs HV.
      assert (dep c d) as Hcd by (by exists cellDef).
      apply IH; [done|by eapply reachable_step| |].
      + rewrite HV. intros v [->%elem_of_singleton|Hv]%elem_of_union.
        * by apply tc_once.
        * eapply tc_r; [by apply Hpath|done].
      + rewrite HV.
        assert (dom template ∖ ({[c]} ∪ visiting st) ⊂ dom template ∖ visiting st)
          as Hsub%subset_size; [|lia].
        split.
        * intros x. rewrite !elem_of_difference, elem_of_union. tauto.
        * intros Hsub. specialize (Hsub c).
          rewrite !elem_of_difference, elem_of_union, elem_of_singleton in Hsub.
          assert (c ∈ dom template) by (apply elem_of_dom; by eexists).
          tauto. }
  match goal with |- context [for_of ?b ?l ?s] =>
    destruct (for_of b l s) as [st2| |]; done
  end.
Qed.

Lemma visit_root_ends_well cell st :
  inv st → cell ∈ cellSchema → visiting st = ∅ →
  ends_well template cellSchema (visit_root template cell st).
Proof.
  intros Hinv Hcell HV. unfold visit_root.
  destruct (decide (name cell ∈ visited st)); [done|].
  apply visit_ends_well; [done| | |].
  - apply reachable_root. by apply list_elem_of_fmap_2.
  - rewrite HV. intros v Hv. by apply not_elem_of_empty in Hv.
  - unfold visit_fuel. rewrite HV, difference_empty_L, size_dom. lia.
Qed.

(** The roots loop, from the initial state. *)
Lemma roots_Return st :
  for_of (visit_root template) cellSchema visit_init = Return st →
  inv st ∧ visiting st = ∅ ∧ ∀ c, c ∈ cell_names cellSchema → c ∈ visited st.
Proof.
  intros Hrun.
  destruct (for_of_visit_post template cellSchema name (visit_root template) cellSchema)
    with (st := visit_init) (st' := st) as [(Hinv & HV & _) Hall];
    [|apply visit_inv_init|done|].
  { intros cell s s' Hc Hs Hr. by apply visit_root_Return. }
  split_and!; [done..|].
  intros c (cell & -> & Hcell)%list_elem_of_fmap. by apply Hall.
Qed.

Lemma roots_ends_well :
  ends_well template cellSchema (for_of (visit_root template) cellSchema visit_init).
Proof.
  apply for_of_visit_ends_well with (V := ∅); [| |apply visit_inv_init|done].
  - intros cell s s' Hc Hs Hr. by eapply visit_root_Return.
  - intros cell s Hc Hs HV. by apply visit_root_ends_well.
Qed.

End traversal_errors.

(** ** compileExecutionOrder as a whole *)

Section compile.
Context (template : RowTemplate) (cellSchema : list CellSchema).

Local Abbreviation dep := (depends_on template).

Lemma compile_Return order :
  compileExecutionOrder template cellSchema = Return order →
  ∃ st, executionOrder st = order ∧ visit_inv template cellSchema st ∧
        ∀ c, c ∈ cell_names cellSchema → c ∈ order.
Proof.
  unfold compileExecutionOrder. intros Hrun.
  destruct (for_of _ _ _) as [st| |] eqn:Hloop; simplify_eq.
  destruct (roots_Return _ _ _ Hloop) as (Hinv & _ & Hall).
  exists st. split_and!; [done..|].
  intros c Hc. by apply (inv_visited _ _ _ Hinv), Hall.
Qed.

Lemma compile_ends_well :
  ends_well template cellSchema (compileExecutionOrder template cellSchema).
Proof.
  unfold compileExecutionOrder. pose proof (roots_ends_well template cellSchema) as H.
  by destruct (for_of _ _ _).
Qed.

Lemma compile_NoDup order :
  compileExecutionOrder template cellSchema = Return order → NoDup order.
Proof. intros (st & <- & Hinv & _)%compile_Return. apply Hinv. Qed.

Lemma compile_dependencies_first order :
  compileExecutionOrder template cellSchema = Return order →
  dependencies_first template order.
Proof.
  intros (st & <- & Hinv & _)%compile_Return c d Hc Hd.
  apply list_elem_of_lookup in Hc as [j Hj].
  destruct (inv_deps _ _ _ Hinv c d j Hj Hd) as (i & Hij & Hi).
  split_and!; [by eauto..|].
  intros i' j' Hi' Hj'.
  rewrite (NoDup_lookup _ _ _ _ (inv_nodup _ _ _ Hinv) Hi' Hi).
  by rewrite (NoDup_lookup _ _ _ _ (inv_nodup _ _ _ Hinv) Hj' Hj).
Qed.

(** The order holds exactly the columns reachable from the schema's. *)
Lemma compile_reachable order x :
  compileExecutionOrder template cellSchema = Return order →
  x ∈ order ↔ reachable template cellSchema x.
Proof.
  intros Hrun. pose proof (compile_dependencies_first _ Hrun) as Hfirst.
  destruct (compile_Return _ Hrun) as (st & <- & Hinv & Hall).
  split; [by apply Hinv|].
  intros (r & Hr & Hpath). apply Hall in Hr.
  induction Hpath as [|a b c Hab _ IH]; [done|].
  apply IH. destruct (Hfirst a b Hr Hab) as ([i Hi] & _).
  apply list_elem_of_lookup. by eauto.
Qed.

Lemma dependencies_first_tc order x y :
  dependencies_first template order → x ∈ order → tc dep x y →
  strictly_before order y x.
Proof.
  intros Hfirst Hx Hpath. induction Hpath as [a b Hab|a b c Hab _ IH].
  - by apply Hfirst.
  - destruct (Hfirst a b Hx Hab) as ([i Hi] & [j Hj] & Hlt).
    destruct IH as ([k Hk] & _ & Hlt').
    { apply list_elem_of_lookup. by eauto. }
    split_and!; [by eauto..|].
    intros k' j' Hk' Hj'. specialize (Hlt i j' Hi Hj'). specialize (Hlt' k' i Hk' Hi). lia.
Qed.

Lemma compile_Return_acyclic order :
  compileExecutionOrder template cellSchema = Return order →
  ¬ cyclic template cellSchema.
Proof.
  intros Hrun (x & Hreach & Hcycle).
  apply (compile_reachable _ _ Hrun) in Hreach.
  destruct (dependencies_first_tc order x x) as ([i Hi] & _ & Hlt);
    [by apply compile_dependencies_first|done..|].
  specialize (Hlt i i Hi Hi). lia.
Qed.

Lemma well_typed_reachable x :
  well_typed template cellSchema → reachable template cellSchema x →
  x ∈ cell_names cellSchema.
Proof.
  intros Hwt (r & Hr & Hpath). induction Hpath as [|a b c Hab _ IH]; [done|].
  apply IH. destruct (Hwt a Hr) as (def & Hdef & Hdeps).
  destruct Hab as (def' & Hdef' & Hb). apply Hdeps. congruence.
Qed.

Lemma well_typed_no_undefined e :
  well_typed template cellSchema → ¬ undefined_error template cellSchema e.
Proof.
  intros Hwt (_ & x & Hx & Hnone).
  destruct (Hwt x (well_typed_reachable x Hwt Hx)) as (def & Hdef & _). congruence.
Qed.

Lemma compile_cyclic :
  well_typed template cellSchema → cyclic template cellSchema →
  ∃ y, compileExecutionOrder template cellSchema
         = Throw (CircularDependencyError (circular_message y)) ∧
       reachable template cellSchema y ∧ on_cycle template y.
Proof.
  intros Hwt Hcyc. pose proof compile_ends_well as Hend.
  destruct (compileExecutionOrder template cellSchema) as [order|e|] eqn:Hrun.
  - by destruct (compile_Return_acyclic order Hrun).
  - destruct Hend as [(y & -> & Hy)|Hundef]; [by exists y|].
    by destruct (well_typed_no_undefined e Hwt).
  - done.
Qed.

Lemma compile_acyclic :
  well_typed template cellSchema → ¬ cyclic template cellSchema →
  ∃ order, compileExecutionOrder template cellSchema = Return order.
Proof.
  intros Hwt Hacyc. pose proof compile_ends_well as Hend.
  destruct (compileExecutionOrder template cellSchema) as [order|e|] eqn:Hrun.
  - by exists order.
  - destruct Hend as [(y & -> & Hy)|Hundef].
    + destruct Hacyc. by exists y.
    + by destruct (well_typed_no_undefined e Hwt).
  - done.
Qed.


End compile.

(** ** The examples are well typed *)

Lemma BasicExample_well_typed :
  well_typed BasicExample.template BasicExample.cellSchema.
Proof.
  intros c Hc. simpl in Hc.
  apply elem_of_cons in Hc as [->|Hc]; [|apply list_elem_of_singleton in Hc as ->].
  - eexists. split; [reflexivity|]. simpl.
    intros d ->%list_elem_of_singleton. apply elem_of_cons. right. by left.
  - eexists. split; [reflexivity|]. simpl. intros d Hd. by apply elem_of_nil in Hd.
Qed.

Lemma BasicExample_order :
  compileExecutionOrder BasicExample.template BasicExample.cellSchema = Return ["b"; "a"].
Proof. vm_compute. reflexivity. Qed.

Lemma CycleExample_well_typed :
  well_typed CycleExample.template CycleExample.cellSchema.
Proof.
  intros c Hc. simpl in Hc.
  apply elem_of_cons in Hc as [->|Hc]; [|apply list_elem_of_singleton in Hc as ->].
  - eexists. split; [reflexivity|]. simpl.
    intros d ->%list_elem_of_singleton. apply elem_of_cons. right. by left.
  - eexists. split; [reflexivity|]. simpl.
    intros d ->%list_elem_of_singleton. by left.
Qed.

Lemma CycleExample_cyclic : cyclic CycleExample.template CycleExample.cellSchema.
Proof.
  exists "a". split.
  - apply reachable_root. by left.
  - apply tc_l with "b"; [|apply tc_once].
    + eexists. split; [reflexivity|]. by left.
    + eexists. split; [reflexivity|]. by left.
Qed.

(** ** Claims about the dependency compiler *)

(** C1. Order invariant: in the order returned by [compileExecutionOrder]
    every column of the schema occurs, and every name in a column's
    [currRowDependencies] occurs at a strictly smaller index than the column
    itself; an order is returned for every acyclic (well-typed) template. *)
Theorem compileExecutionOrder_dependencies_first template cellSchema :
  (∀ order, compileExecutionOrder template cellSchema = Return order →
     (∀ c, c ∈ cell_names cellSchema → c ∈ order) ∧
     ∀ c cellDef d, c ∈ order → template !! c = Some cellDef →
       d ∈ currRowDependencies cellDef → strictly_before order d c) ∧
  (well_typed template cellSchema → ¬ cyclic template cellSchema →
     ∃ order, compileExecutionOrder template cellSchema = Return order).
Proof.
  split.
  - intros order Hrun. split.
    + by destruct (compile_Return _ _ _ Hrun) as (st & _ & _ & Hall).
    + intros c cellDef d Hc Hdef Hd.
      apply (compile_dependencies_first _ _ _ Hrun); [done|]. by exists cellDef.
  - apply compile_acyclic.
Qed.

Lemma compileExecutionOrder_dependencies_first_witness :
  (∃ order, compileExecutionOrder BasicExample.template BasicExample.cellSchema
              = Return order) ∧
  strictly_before ["b"; "a"] "b" "a".
Proof.
  pose proof (compileExecutionOrder_dependencies_first
                BasicExample.template BasicExample.cellSchema) as [Hfirst Hreturns].
  split.
  - apply Hreturns; [apply BasicExample_well_typed|].
    eapply compile_Return_acyclic, BasicExample_order.
  - destruct (Hfirst ["b"; "a"] BasicExample_order) as [_ Hdeps].
    eapply (Hdeps "a" _ "b"); [|reflexivity|].
    + apply elem_of_cons. right. by left.
    + by left.
Defined.



(** C6. For a template whose dependency names all occur in the schema, the
    returned order holds every column name of the schema, nothing else, and
    no name twice; it is a permutation of the schema's names (which are
    unique). *)
Theorem compileExecutionOrder_permutation template cellSchema order :
  well_typed template cellSchema →
  compileExecutionOrder template cellSchema = Return order →
  NoDup order ∧
  (∀ c, c ∈ order ↔ c ∈ cell_names cellSchema) ∧
  (NoDup (cell_names cellSchema) → order ≡ₚ cell_names cellSchema).
Proof.
  intros Hwt Hrun.
  assert (∀ c, c ∈ order ↔ c ∈ cell_names cellSchema) as Hsame.
  { intros c. rewrite (compile_reachable _ _ _ _ Hrun). split.
    - by apply well_typed_reachable.
    - apply reachable_root. }
  split_and!; [by eapply compile_NoDup|done|].
  intros Hnames. apply NoDup_Permutation; [by eapply compile_NoDup|done..].
Qed.

Lemma compileExecutionOrder_permutation_witness :
  NoDup ["b"; "a"] ∧
  (∀ c, c ∈ ["b"; "a"] ↔ c ∈ cell_names BasicExample.cellSchema) ∧
  (NoDup (cell_names BasicExample.cellSchema) →
   ["b"; "a"] ≡ₚ cell_names BasicExample.cellSchema).
Proof.
  apply (compileExecutionOrder_permutation BasicExample.template).
  - apply BasicExample_well_typed.
  - vm_compute. reflexivity.
Defined.

(** ** Templates without dependencies *)

Lemma first_occurrences_from_NoDup seen names :
  NoDup names → (∀ x, x ∈ names → x ∉ seen) →
  first_occurrences_from seen names = names.
Proof.
  revert seen. induction names as [|x names IH]; intros seen Hnodup Hfresh; simpl; [done|].
  apply NoDup_cons in Hnodup as [Hx Hnodup].
  destruct (decide (x ∈ seen)) as [Hseen|_].
  { by destruct (Hfresh x (list_elem_of_here _ _)). }
  f_equal. apply IH; [done|].
  intros y Hy [->%elem_of_singleton|Hin]%elem_of_union; [done|].
  by apply (Hfresh y); [right|].
Qed.

Lemma visit_leaf template fuel c cellDef st :
  template !! c = Some cellDef → currRowDependencies cellDef = [] →
  c ∉ visited st → visiting st = ∅ →
  visit template (S fuel) c st =
    Return {| executionOrder := executionOrder st ++ [c];
              visited := {[c]} ∪ visited st;
              visiting := ∅ |}.
Proof.
  intros Hdef Hdeps Hvisited Hvisiting. simpl.
  rewrite Hvisiting, Hdef, Hdeps. simpl.
  destruct (decide (c ∈ ∅)) as [Hin|_]; [by apply not_elem_of_empty in Hin|].
  destruct (decide (c ∈ visited st)); [done|].
  do 2 f_equal. apply leibniz_equiv. intros x.
  rewrite elem_of_difference, elem_of_union, elem_of_singleton. 
  split; [tauto|]. intros Hx. by apply not_elem_of_empty in Hx.
Qed.

Lemma roots_no_dependencies template cellSchema :
  no_dependencies template cellSchema →
  ∀ st, visiting st = ∅ →
    ∃ st', for_of (visit_root template) cellSchema st = Return st' ∧
      executionOrder st' =
        (executionOrder st ++
           first_occurrences_from (visited st) (cell_names cellSchema))%list.
Proof.
  induction cellSchema as [|cell cells IH]; intros Hnodeps st Hvisiting; simpl.
  { exists st. by rewrite app_nil_r. }
  assert (no_dependencies template cells) as Hrest.
  { intros c Hc. apply Hnodeps. simpl. by right. }
  unfold visit_root at 1.
  destruct (decide (name cell ∈ visited st)) as [Hseen|Hseen]; [by apply IH|].
  destruct (Hnodeps (name cell)) as (cellDef & Hdef & Hdeps); [simpl; by left|].
  unfold visit_fuel. rewrite (visit_leaf _ _ _ cellDef) by done.
  edestruct (IH Hrest) as (st' & -> & Horder); [|exists st'; split; [done|]].
  { done. }
  rewrite Horder. simpl. by rewrite <- app_assoc.
Qed.

(** C10. If every column's dependency list is empty, [compileExecutionOrder]
    returns the schema's column names in their declared order (each name at
    its first occurrence; the names of a schema are unique, and then the
    order is exactly the sequence of names of the schema). *)
Theorem compileExecutionOrder_no_dependencies template cellSchema :
  no_dependencies template cellSchema →
  compileExecutionOrder template cellSchema
    = Return (first_occurrences (cell_names cellSchema)) ∧
  (NoDup (cell_names cellSchema) →
   compileExecutionOrder template cellSchema = Return (cell_names cellSchema)).
Proof.
  intros Hnodeps.
  assert (compileExecutionOrder template cellSchema
            = Return (first_occurrences (cell_names cellSchema))) as Hrun.
  { unfold compileExecutionOrder.
    destruct (roots_no_dependencies template cellSchema Hnodeps visit_init)
      as (st & -> & Horder); [done|].
    by rewrite Horder. }
  split; [done|]. intros Hnodup. rewrite Hrun. f_equal.
  apply first_occurrences_from_NoDup; [done|].
  intros x _. apply not_elem_of_empty.
Qed.

Lemma compileExecutionOrder_no_dependencies_witness :
  compileExecutionOrder IndependentExample.template IndependentExample.cellSchema
    = Return ["c"; "a"; "b"].
Proof.
  destruct (compileExecutionOrder_no_dependencies IndependentExample.template
              IndependentExample.cellSchema) as [_ Hschema].
  - intros c Hc. simpl in Hc.
    apply elem_of_cons in Hc as [->|Hc];
      [|apply elem_of_cons in Hc as [->|Hc];
        [|apply list_elem_of_singleton in Hc as ->]];
      eexists; (split; [reflexivity|reflexivity]).
  - apply Hschema. simpl.
    apply NoDup_cons. split.
    { intros Hin. apply elem_of_cons in Hin as [Hin|Hin]; [discriminate Hin|].
      apply list_elem_of_singleton in Hin. discriminate Hin. }
    apply NoDup_cons. split; [|apply NoDup_singleton].
    intros Hin. apply list_elem_of_singleton in Hin. discriminate Hin.
Defined.

(** ** The two engines as instances of the common loop *)

Lemma evaluateRow_loop_with_id template context rowState executionOrder σ :
  evaluateRow_loop template context rowState executionOrder σ =
  evaluateRow_loop_with id template context rowState executionOrder σ.
Proof.
  revert σ. induction executionOrder as [|cellName rest IH]; intros σ; simpl; [done|].
  destruct (template !! cellName) as [cellDef|]; [|done].
  destruct (formula cellDef _); [done|]. apply IH.
Qed.

Lemma Legacy_evaluateRow_loop_with template context rowState executionOrder σ :
  Legacy.evaluateRow_loop template context rowState executionOrder σ =
  evaluateRow_loop_with VCellState template context rowState executionOrder σ.
Proof.
  revert σ. induction executionOrder as [|cellName rest IH]; intros σ; simpl; [done|].
  destruct (template !! cellName) as [cellDef|]; [|done].
  destruct (formula cellDef _); [done|]. apply IH.
Qed.

Lemma processRows_loop_with_id template executionOrder inputs remaining :
  ∀ rows prevRowState σ,
    processRows_loop template executionOrder inputs remaining rows prevRowState σ =
    processRows_loop_with id template executionOrder inputs remaining rows prevRowState σ.
Proof.
  induction remaining as [|k IH]; intros rows prevRowState σ; simpl; [done|].
  unfold evaluateRow. rewrite evaluateRow_loop_with_id.
  destruct (evaluateRow_loop_with _ _ _ _ _ _) as [[[]| |] σ']; [|done..]. apply IH.
Qed.

Lemma Legacy_processRows_loop_with template executionOrder inputs remaining :
  ∀ rows prevRowState σ,
    Legacy.processRows_loop template executionOrder inputs remaining rows prevRowState σ =
    processRows_loop_with VCellState template executionOrder inputs remaining
      rows prevRowState σ.
Proof.
  induction remaining as [|k IH]; intros rows prevRowState σ; simpl; [done|].
  unfold Legacy.evaluateRow. rewrite Legacy_evaluateRow_loop_with.
  destruct (evaluateRow_loop_with _ _ _ _ _ _) as [[[]| |] σ']; [|done..]. apply IH.
Qed.

(** ** What one row evaluation writes *)

Section row_evaluation.
Context (store : value → value) (template : RowTemplate).

Local Abbreviation run := (evaluateRow_loop_with store template).

(** Only the object at [rowState] is written, and nothing is allocated. *)
Lemma evaluateRow_loop_frame context rowState executionOrder : ∀ σ,
  length (heap (run context rowState executionOrder σ).2) = length (heap σ) ∧
  ∀ l, l ≠ rowState →
    heap (run context rowState executionOrder σ).2 !! l = heap σ !! l.
Proof.
  induction executionOrder as [|cellName rest IH]; intros σ; simpl; [done|].
  destruct (template !! cellName) as [cellDef|]; [|done].
  destruct (formula cellDef _) as [e|result]; [done|].
  destruct (IH (set_property rowState cellName (store result)
                  (record_call cellName context σ))) as [Hlen Hframe].
  split.
  - rewrite Hlen. simpl. apply length_insert.
  - intros l Hl. rewrite Hframe by done. simpl. by apply list_lookup_insert_ne.
Qed.

Lemma evaluateRow_loop_frame_total context rowState executionOrder σ l :
  l ≠ rowState →
  heap (run context rowState executionOrder σ).2 !!! l = heap σ !!! l.
Proof.
  intros Hl. rewrite !list_lookup_total_alt.
  by rewrite (proj2 (evaluateRow_loop_frame context rowState executionOrder σ) l Hl).
Qed.

(** It never runs out of fuel, and with formulas that succeed on columns
    that are defined it completes. *)
Lemma evaluateRow_loop_Return context rowState executionOrder : ∀ σ,
  formulas_succeed template →
  (∀ c, c ∈ executionOrder → is_Some (template !! c)) →
  (run context rowState executionOrder σ).1 = Return tt.
Proof.
  induction executionOrder as [|cellName rest IH]; intros σ Hok Hdef; simpl; [done|].
  destruct (Hdef cellName (list_elem_of_here _ _)) as [cellDef Hc]. rewrite Hc.
  destruct (Hok cellName cellDef (read_context (heap σ) context) Hc) as [v ->].
  apply IH; [done|]. intros c Hin. apply Hdef. by right.
Qed.

(** The invocations it records: all with the context object it built, and,
    when the previous row is another object than the current one, all
    seeing the previous row as it was at the start. *)
Lemma evaluateRow_loop_calls context rowState executionOrder : ∀ σ,
  ctx_prevRow context ≠ Some rowState →
  ∃ calls,
    formula_calls (run context rowState executionOrder σ).2
      = formula_calls σ ++ calls ∧
    ((run context rowState executionOrder σ).1 = Return tt →
     call_cell <$> calls = executionOrder) ∧
    ∀ call, call ∈ calls →
      call_context call = context ∧
      prevRow (call_args call) = (λ l, heap σ !!! l) <$> ctx_prevRow context.
Proof.
  induction executionOrder as [|cellName rest IH]; intros σ Hprev; simpl.
  { exists []. split_and!; [by rewrite app_nil_r|done|].
    intros call Hc. by apply elem_of_nil in Hc. }
  destruct (template !! cellName) as [cellDef|].
  2:{ exists []. split_and!; [by rewrite app_nil_r|done|].
      intros call Hc. by apply elem_of_nil in Hc. }
  set (this := {| call_cell := cellName; call_context := context;
                  call_args := read_context (heap σ) context |}).
  destruct (formula cellDef _) as [e|result].
  { exists [this]. split_and!; [done..|]. by intros call ->%list_elem_of_singleton. }
  destruct (IH (set_property rowState cellName (store result)
                  (record_call cellName context σ)) Hprev)
    as (calls & Hcalls & Hcells & Hall).
  exists (this :: calls). split_and!.
  - rewrite Hcalls. simpl. by rewrite <- app_assoc.
  - intros Hret. simpl. f_equal. by apply Hcells.
  - intros call [->|Hin]%elem_of_cons; [done|].
    destruct (Hall call Hin) as [Hctx Hargs]. split; [done|]. rewrite Hargs. simpl.
    destruct (ctx_prevRow context) as [p|]; [|done]. simpl. f_equal.
    apply list_lookup_total_insert_ne. congruence.
Qed.

End row_evaluation.

(** ** The loop over rows *)

Section row_loop.
Context (store : value → value) (template : RowTemplate)
        (executionOrder : list string) (inputs : loc).

Local Abbreviation loop := (processRows_loop_with store template executionOrder inputs).

(** With formulas that succeed and an order of defined columns, every
    iteration completes. *)
Lemma processRows_loop_Return remaining :
  formulas_succeed template →
  (∀ c, c ∈ executionOrder → is_Some (template !! c)) →
  ∀ rows prevRowState σ, ∃ rows' σ',
    loop remaining rows prevRowState σ = (Return rows', σ').
Proof.
  intros Hok Hdef. induction remaining as [|k IH]; intros rows prev σ; simpl.
  { by eauto. }
  match goal with |- context [evaluateRow_loop_with ?s ?t ?c ?r ?o ?x] =>
    pose proof (evaluateRow_loop_Return s t c r o x Hok Hdef) as Hrow;
    destruct (evaluateRow_loop_with s t c r o x) as [o' σ1]
  end.
  simpl in Hrow. subst o'. apply IH.
Qed.

(** What a completed loop has done: one fresh row per iteration, earlier
    objects untouched, and every formula of row [i] called with row
    [i - 1] as it finally is (with [null] for the first row). *)
Lemma processRows_loop_chain remaining : ∀ rows prevRowState σ rows' σ',
  loop remaining rows prevRowState σ = (Return rows', σ') →
  Forall (λ l, l < length (heap σ)) rows → NoDup rows →
  prevRowState = last rows →
  ∃ new_rows calls,
    rows' = rows ++ new_rows ∧ length new_rows = remaining ∧
    formula_calls σ' = formula_calls σ ++ calls ∧
    call_cell <$> calls = mjoin (replicate remaining executionOrder) ∧
    (∀ l, l < length (heap σ) → heap σ' !! l = heap σ !! l) ∧
    Forall (λ l, l < length (heap σ')) rows' ∧ NoDup rows' ∧
    ∀ call, call ∈ calls →
      ∃ i, length rows ≤ i ∧ rows' !! i = Some (ctx_currRow (call_context call)) ∧
        prevRow (call_args call) =
          match i with
          | O => None
          | S j => (λ l, heap σ' !!! l) <$> rows' !! j
          end.
Proof.
  induction remaining as [|k IH]; intros rows prev σ rows' σ' Hrun Hvalid Hnodup Hprev;
    simpl in Hrun.
  { simplify_eq. exists [], []. rewrite !app_nil_r. split_and!; try done.
    intros call Hc. by apply elem_of_nil in Hc. }
  set (r := length (heap σ)) in *.
  set (context := {| ctx_prevRow := prev; ctx_currRow := r; ctx_inputs := inputs |}) in *.
  assert (∀ p, p ∈ rows → p < r) as Hlt by (by apply Forall_forall).
  assert (ctx_prevRow context ≠ Some r) as Hne.
  { simpl. rewrite Hprev. intros Hlast%last_Some_elem_of%Hlt. lia. }
  pose proof (evaluateRow_loop_frame store template context r executionOrder (alloc ∅ σ))
    as [Hlen Hframe].
  destruct (evaluateRow_loop_calls store template context r executionOrder (alloc ∅ σ) Hne)
    as (calls1 & Hcalls1 & Hcells1 & Hall1).
  destruct (evaluateRow_loop_with store template context r executionOrder (alloc ∅ σ))
    as [[[]| |] σ1]; [|done..].
  simpl in Hlen, Hframe, Hcalls1, Hcells1, Hall1. rewrite length_app in Hlen. simpl in Hlen.
  destruct (IH _ _ _ _ _ Hrun)
    as (new & calls2 & -> & Hk & Hcalls2 & Hcells2 & Hold & Hvalid' & Hnodup' & Hall2).
  { apply Forall_app. split.
    - eapply Forall_impl; [done|]. simpl. fold r. lia.
    - apply Forall_singleton. fold r. lia. }
  { apply NoDup_app. split_and!; [done| |apply NoDup_singleton].
    intros p Hp%Hlt ->%list_elem_of_singleton. lia. }
  { by rewrite last_snoc. }
  assert (∀ l, l < r → heap σ' !! l = heap σ !! l) as Hold'.
  { intros l Hl. rewrite Hold by (fold r; lia). rewrite Hframe by lia.
    by apply lookup_app_l. }
  exists (r :: new), (calls1 ++ calls2).
  rewrite <- app_assoc in *. simpl in *.
  split_and!; [done|by rewrite Hk|by rewrite Hcalls2, Hcalls1, app_assoc
              |by rewrite fmap_app, Hcells1, Hcells2|done..|].
  intros call [Hin|Hin]%elem_of_app.
  - destruct (Hall1 call Hin) as [-> Hargs]. simpl.
    exists (length rows). split_and!; [done|by apply list_lookup_middle|].
    rewrite Hargs, Hprev, last_lookup.
    destruct (length rows) as [|j] eqn:Hj; simpl.
    { apply length_zero_iff_nil in Hj as ->. done. }
    rewrite lookup_app_l by lia.
    destruct (rows !! j) as [p|] eqn:Hp; [|done]. simpl. f_equal.
    assert (p < r) as Hpr by (apply Hlt; by eapply list_elem_of_lookup_2).
    rewrite !list_lookup_total_alt. f_equal.
    rewrite Hold' by done. by rewrite lookup_app_l.
  - destruct (Hall2 call Hin) as (i & Hi & Hrow & Hargs).
    rewrite length_app in Hi. simpl in Hi.
    exists i. split_and!; [lia|done..].
Qed.

End row_loop.

(** ** Two runs side by side *)

Lemma map_context_id ctx : map_context id ctx = ctx.
Proof.
  destruct ctx as [prev cur inp]. unfold map_context, map_row. simpl. f_equal.
  - destruct prev as [prev|]; simpl; [|done]. by rewrite map_fmap_id.
  - apply map_fmap_id.
Qed.

Lemma map_rows_id o : map_rows id o = o.
Proof.
  destruct o as [rows| |]; simpl; [|done..]. f_equal.
  rewrite <- (list_fmap_id rows) at 2. apply list_fmap_ext. intros i row _. apply map_fmap_id.
Qed.

Lemma insensitive_id template : insensitive id template.
Proof. intros c cellDef ctx _. by rewrite map_context_id. Qed.

Lemma read_context_set_property h context c v :
  own_row context h →
  read_context (<[ctx_currRow context := <[c := v]> (h !!! ctx_currRow context)]> h) context
  = {| prevRow := prevRow (read_context h context);
       currRow := <[c := v]> (currRow (read_context h context));
       inputs := inputs (read_context h context) |}.
Proof.
  intros (Hlt & Hprev & Hinp). unfold read_context. simpl. f_equal.
  - destruct (ctx_prevRow context) as [p|]; [|done]. simpl. f_equal.
    apply list_lookup_total_insert_ne. congruence.
  - by apply list_lookup_total_insert_eq.
  - apply list_lookup_total_insert_ne. congruence.
Qed.

Section two_runs.
Context (g f1 f2 : value → value) (template : RowTemplate).
Context (Hstore : ∀ v, f1 v = g (f2 v)) (Hformulas : insensitive g template).

(** Row evaluations started on corresponding contexts end alike, on
    corresponding contexts. *)
Lemma evaluateRow_loop_sim context1 context2 executionOrder : ∀ σ1 σ2,
  own_row context1 (heap σ1) → own_row context2 (heap σ2) →
  read_context (heap σ1) context1 = map_context g (read_context (heap σ2) context2) →
  let r1 := evaluateRow_loop_with f1 template context1 (ctx_currRow context1)
              executionOrder σ1 in
  let r2 := evaluateRow_loop_with f2 template context2 (ctx_currRow context2)
              executionOrder σ2 in
  r1.1 = r2.1 ∧
  read_context (heap r1.2) context1 = map_context g (read_context (heap r2.2) context2).
Proof.
  induction executionOrder as [|cellName rest IH]; intros σ1 σ2 Hown1 Hown2 Hrel; simpl;
    [done|].
  destruct (template !! cellName) as [cellDef|] eqn:Hdef; [|done].
  rewrite Hrel, (Hformulas cellName cellDef) by done.
  destruct (formula cellDef _) as [e|result]; [done|].
  apply IH; simpl.
  - destruct Hown1 as (? & ? & ?). split_and!; [by rewrite length_insert|done..].
  - destruct Hown2 as (? & ? & ?). split_and!; [by rewrite length_insert|done..].
  - rewrite !read_context_set_property by done. rewrite Hrel, Hstore.
    unfold map_context, map_row. simpl. f_equal. by rewrite fmap_insert.
Qed.

End two_runs.

(** One iteration of the loop over rows: a fresh object is allocated and
    filled; the objects that were there keep their contents. *)
Lemma row_iteration_frame store template context executionOrder σ :
  let σ' := (evaluateRow_loop_with store template context (length (heap σ))
               executionOrder (alloc ∅ σ)).2 in
  length (heap σ') = S (length (heap σ)) ∧
  ∀ l, l < length (heap σ) → heap σ' !!! l = heap σ !!! l.
Proof.
  simpl. split.
  - rewrite (proj1 (evaluateRow_loop_frame _ _ _ _ _ _)). simpl.
    rewrite length_app. simpl. lia.
  - intros l Hl. rewrite evaluateRow_loop_frame_total by lia. simpl.
    by apply lookup_total_app_l.
Qed.

Lemma heap_agree_fmap (h h' : list object) (n : nat) (ls : list loc) :
  (∀ l, l < n → h' !!! l = h !!! l) → Forall (λ l, l < n) ls →
  (λ l, h' !!! l) <$> ls = (λ l, h !!! l) <$> ls.
Proof.
  intros Hagree Hls. apply Forall_fmap_ext_1.
  eapply Forall_impl; [done|]. simpl. auto.
Qed.

Section two_loops.
Context (g f1 f2 : value → value) (template : RowTemplate)
        (executionOrder : list string) (inputs1 inputs2 : loc).
Context (Hstore : ∀ v, f1 v = g (f2 v)) (Hformulas : insensitive g template).

Lemma processRows_loop_sim remaining : ∀ rows1 rows2 prev1 prev2 σ1 σ2,
  inputs1 < length (heap σ1) → inputs2 < length (heap σ2) →
  heap σ1 !!! inputs1 = heap σ2 !!! inputs2 →
  Forall (λ l, l < length (heap σ1)) rows1 →
  Forall (λ l, l < length (heap σ2)) rows2 →
  (∀ p, prev1 = Some p → p < length (heap σ1)) →
  (∀ p, prev2 = Some p → p < length (heap σ2)) →
  (λ l, heap σ1 !!! l) <$> rows1 = map_row g <$> ((λ l, heap σ2 !!! l) <$> rows2) →
  (λ l, heap σ1 !!! l) <$> prev1 = map_row g <$> ((λ l, heap σ2 !!! l) <$> prev2) →
  returned_rows
    (processRows_loop_with f1 template executionOrder inputs1 remaining rows1 prev1 σ1)
  = map_rows g (returned_rows
    (processRows_loop_with f2 template executionOrder inputs2 remaining rows2 prev2 σ2)).
Proof.
  induction remaining as [|k IH];
    intros rows1 rows2 prev1 prev2 σ1 σ2 Hi1 Hi2 Hinp Hv1 Hv2 Hp1 Hp2 Hrows Hprev; simpl.
  { by rewrite Hrows. }
  set (r1 := length (heap σ1)). set (r2 := length (heap σ2)).
  set (c1 := {| ctx_prevRow := prev1; ctx_currRow := r1; ctx_inputs := inputs1 |}).
  set (c2 := {| ctx_prevRow := prev2; ctx_currRow := r2; ctx_inputs := inputs2 |}).
  assert (own_row c1 (heap (alloc ∅ σ1))) as Hown1.
  { unfold own_row. simpl. rewrite length_app. simpl. fold r1. split_and!; [lia| |lia].
    intros Heq%Hp1. fold r1 in Heq. lia. }
  assert (own_row c2 (heap (alloc ∅ σ2))) as Hown2.
  { unfold own_row. simpl. rewrite length_app. simpl. fold r2. split_and!; [lia| |lia].
    intros Heq%Hp2. fold r2 in Heq. lia. }
  assert (read_context (heap (alloc ∅ σ1)) c1
          = map_context g (read_context (heap (alloc ∅ σ2)) c2)) as Hrel.
  { unfold read_context, map_context. simpl. f_equal.
    - transitivity ((λ l, heap σ1 !!! l) <$> prev1).
      { destruct prev1 as [p|]; [|done]. simpl. f_equal.
        apply lookup_total_app_l. by apply Hp1. }
      rewrite Hprev. destruct prev2 as [p|]; [|done]. simpl. do 2 f_equal.
      symmetry. apply lookup_total_app_l. by apply Hp2.
    - unfold r1, r2. rewrite !list_lookup_total_middle by done.
      unfold map_row. by rewrite fmap_empty.
    - rewrite !lookup_total_app_l by done. done. }
  pose proof (evaluateRow_loop_sim g f1 f2 template Hstore Hformulas c1 c2
                executionOrder _ _ Hown1 Hown2 Hrel) as [Hout Hrel'].
  pose proof (row_iteration_frame f1 template c1 executionOrder σ1) as [Hlen1 Hold1].
  pose proof (row_iteration_frame f2 template c2 executionOrder σ2) as [Hlen2 Hold2].
  simpl in Hout, Hrel', Hlen1, Hold1, Hlen2, Hold2. fold r1 r2 in Hlen1, Hold1, Hlen2, Hold2.
  fold r1 in Hout, Hrel'. fold r2 in Hout, Hrel'.
  destruct (evaluateRow_loop_with f1 template c1 r1 executionOrder (alloc ∅ σ1))
    as [o1 σ1'].
  destruct (evaluateRow_loop_with f2 template c2 r2 executionOrder (alloc ∅ σ2))
    as [o2 σ2'].
  simpl in *. subst o2. destruct o1 as [[]|e|]; [|done..].
  assert (heap σ1' !!! r1 = map_row g (heap σ2' !!! r2)) as Hnew.
  { by injection Hrel'. }
  apply IH.
  - lia.
  - lia.
  - rewrite Hold1, Hold2 by done. done.
  - apply Forall_app. split; [|apply Forall_singleton; lia].
    eapply Forall_impl; [done|]. simpl. fold r1. lia.
  - apply Forall_app. split; [|apply Forall_singleton; lia].
    eapply Forall_impl; [done|]. simpl. fold r2. lia.
  - intros p [= <-]. lia.
  - intros p [= <-]. lia.
  - rewrite !fmap_app. simpl.
    rewrite (heap_agree_fmap (heap σ1) (heap σ1') r1) by done.
    rewrite (heap_agree_fmap (heap σ2) (heap σ2') r2) by done.
    by rewrite Hrows, Hnew.
  - simpl. by rewrite Hnew.
Qed.

End two_loops.

(** ** The history of invocations is ghost

    Outcome and heap of a run do not depend on the history it starts with. *)

Lemma evaluateRow_loop_ghost store template context rowState executionOrder :
  ∀ σ1 σ2, heap σ1 = heap σ2 →
    let r1 := evaluateRow_loop_with store template context rowState executionOrder σ1 in
    let r2 := evaluateRow_loop_with store template context rowState executionOrder σ2 in
    r1.1 = r2.1 ∧ heap r1.2 = heap r2.2.
Proof.
  induction executionOrder as [|cellName rest IH]; intros σ1 σ2 Hheap; simpl; [done|].
  destruct (template !! cellName) as [cellDef|]; [|done].
  rewrite Hheap. destruct (formula cellDef _) as [e|result]; [done|].
  apply IH. simpl. by rewrite Hheap.
Qed.

Lemma processRows_loop_ghost store template executionOrder inputs remaining :
  ∀ rows prevRowState σ1 σ2, heap σ1 = heap σ2 →
    let r1 := processRows_loop_with store template executionOrder inputs remaining
                rows prevRowState σ1 in
    let r2 := processRows_loop_with store template executionOrder inputs remaining
                rows prevRowState σ2 in
    r1.1 = r2.1 ∧ heap r1.2 = heap r2.2.
Proof.
  induction remaining as [|k IH]; intros rows prev σ1 σ2 Hheap; simpl; [done|].
  rewrite Hheap.
  match goal with |- context [evaluateRow_loop_with ?s ?t ?c ?r ?o (alloc ∅ σ1)] =>
    pose proof (evaluateRow_loop_ghost s t c r o (alloc ∅ σ1) (alloc ∅ σ2)) as [Hout Hh];
    [by simpl; rewrite Hheap|];
    destruct (evaluateRow_loop_with s t c r o (alloc ∅ σ1)) as [o1 σ1'];
    destruct (evaluateRow_loop_with s t c r o (alloc ∅ σ2)) as [o2 σ2']
  end.
  simpl in Hout, Hh. subst o2. destruct o1 as [[]| |]; [|done..]. by apply IH.
Qed.

(** ** The shape of the rows *)

Lemma evaluateRow_loop_shape store (P : value → Prop) template context rowState
    executionOrder :
  (∀ v, P (store v)) →
  ∀ σ, rowState < length (heap σ) →
    (evaluateRow_loop_with store template context rowState executionOrder σ).1
      = Return tt →
    map_Forall (λ _ v, P v) (heap σ !!! rowState) →
    let row' := heap (evaluateRow_loop_with store template context rowState
                        executionOrder σ).2 !!! rowState in
    dom row' = dom (heap σ !!! rowState) ∪ list_to_set executionOrder ∧
    map_Forall (λ _ v, P v) row'.
Proof.
  intros Hstore.
  induction executionOrder as [|cellName rest IH]; intros σ Hvalid Hret Hall; simpl in *.
  { split; [|done]. apply leibniz_equiv. intros x.
    rewrite elem_of_union, elem_of_empty. tauto. }
  destruct (template !! cellName) as [cellDef|]; [|done].
  destruct (formula cellDef _) as [e|result]; [done|].
  set (σ1 := set_property rowState cellName (store result)
               (record_call cellName context σ)) in *.
  assert (heap σ1 !!! rowState = <[cellName := store result]> (heap σ !!! rowState)) as Hrow.
  { simpl. by apply list_lookup_total_insert_eq. }
  destruct (IH σ1) as [Hdom Hall']; [by simpl; rewrite length_insert|done| |].
  { rewrite Hrow. by apply map_Forall_insert_2. }
  split; [|done]. rewrite Hdom, Hrow, dom_insert_L.
  apply leibniz_equiv. intros x. rewrite !elem_of_union. tauto.
Qed.

Lemma processRows_loop_shape store (P : value → Prop) template executionOrder inputs
    remaining :
  (∀ v, P (store v)) →
  ∀ rows prevRowState σ rows' σ',
    processRows_loop_with store template executionOrder inputs remaining
      rows prevRowState σ = (Return rows', σ') →
    Forall (λ l, l < length (heap σ) ∧ row_shape P executionOrder (heap σ !!! l)) rows →
    Forall (λ l, row_shape P executionOrder (heap σ' !!! l)) rows' ∧
    length rows' = length rows + remaining.
Proof.
  intros Hstore.
  induction remaining as [|k IH]; intros rows prev σ rows' σ' Hrun Hrows; simpl in Hrun.
  { simplify_eq. split; [|lia]. eapply Forall_impl; [done|]. simpl. tauto. }
  set (r := length (heap σ)) in *.
  set (context := {| ctx_prevRow := prev; ctx_currRow := r; ctx_inputs := inputs |}) in *.
  pose proof (row_iteration_frame store template context executionOrder σ) as [Hlen Hold].
  pose proof (evaluateRow_loop_shape store P template context r executionOrder Hstore
                (alloc ∅ σ)) as Hshape.
  simpl in Hlen, Hold, Hshape. fold r in Hlen, Hold.
  rewrite list_lookup_total_middle in Hshape by done.
  destruct (evaluateRow_loop_with store template context r executionOrder (alloc ∅ σ))
    as [[[]| |] σ1]; [|done..].
  simpl in *.
  destruct Hshape as [Hdom Hall];
    [rewrite length_app; simpl; fold r; lia|done|apply map_Forall_empty|].
  destruct (IH _ _ _ _ _ Hrun) as [Hall' Hlen'].
  - apply Forall_app. split.
    + eapply Forall_impl; [done|]. simpl. intros l [Hl Hrow].
      split; [lia|]. by rewrite Hold.
    + apply Forall_singleton. split; [lia|]. split; [|done].
      rewrite Hdom, dom_empty_L. apply leibniz_equiv. intros x.
      rewrite elem_of_union, elem_of_empty. tauto.
  - split; [done|]. rewrite Hlen', length_app. simpl. lia.
Qed.

Lemma Forall_Forall2_same_length {A B : Type} (P : A → Prop) (Q : B → Prop)
    (l : list A) (k : list B) :
  Forall P l → Forall Q k → length l = length k →
  Forall2 (λ a b, P a ∧ Q b) l k.
Proof.
  intros Hl. revert k. induction Hl as [|a l Ha Hl IH]; intros k Hk Hlen.
  - destruct k; [constructor|done].
  - destruct Hk as [|b k Hb Hk]; [done|]. simpl in Hlen.
    constructor; [done|]. apply IH; [done|lia].
Qed.

(** ** processRows as a whole *)

(** A run of [processRows] that returned rows cannot have failed to compile. *)
Ltac compile_returned Hrun Hrows :=
  unfold processRows in Hrows; rewrite Hrun in Hrows; discriminate Hrows.


Lemma processRows_loop_frame store template executionOrder inputs remaining :
  ∀ rows prevRowState σ,
    let σ' := (processRows_loop_with store template executionOrder inputs remaining
                 rows prevRowState σ).2 in
    length (heap σ) ≤ length (heap σ') ∧
    ∀ l, l < length (heap σ) → heap σ' !!! l = heap σ !!! l.
Proof.
  induction remaining as [|k IH]; intros rows prev σ; simpl; [done|].
  match goal with |- context [evaluateRow_loop_with ?s ?t ?c _ ?o _] =>
    pose proof (row_iteration_frame s t c o σ) as [Hlen Hold];
    destruct (evaluateRow_loop_with s t c (length (heap σ)) o (alloc ∅ σ)) as [[[]| |] σ1]
  end; simpl in *.
  - destruct (IH (rows ++ [length (heap σ)]) (Some (length (heap σ))) σ1) as [Hlen' Hold'].
    split; [lia|]. intros l Hl. rewrite Hold' by lia. by apply Hold.
  - split; [lia|done].
  - split; [lia|done].
Qed.

Lemma processRows_frame cellSchema template inputs numRows σ :
  let σ' := (processRows cellSchema template inputs numRows σ).2 in
  length (heap σ) ≤ length (heap σ') ∧
  ∀ l, l < length (heap σ) → heap σ' !!! l = heap σ !!! l.
Proof.
  unfold processRows.
  destruct (compileExecutionOrder template cellSchema) as [order|e|]; [|done..].
  rewrite processRows_loop_with_id. apply processRows_loop_frame.
Qed.

(** The rows returned depend on the heap only through the contents of the
    inputs object. *)
Lemma processRows_any_heap cellSchema template numRows inputs1 inputs2 σ1 σ2 :
  inputs1 < length (heap σ1) → inputs2 < length (heap σ2) →
  heap σ1 !!! inputs1 = heap σ2 !!! inputs2 →
  returned_rows (processRows cellSchema template inputs1 numRows σ1) =
  returned_rows (processRows cellSchema template inputs2 numRows σ2).
Proof.
  intros H1 H2 Hinp. unfold processRows.
  destruct (compileExecutionOrder template cellSchema) as [order|e|]; [|done..].
  rewrite !processRows_loop_with_id.
  rewrite (processRows_loop_sim id id id template order inputs1 inputs2)
    with (rows2 := []) (prev2 := None) (σ2 := σ2);
    [apply map_rows_id|done|apply insensitive_id|done..].
Qed.

Lemma processRows_Return cellSchema template inputs numRows σ order :
  compileExecutionOrder template cellSchema = Return order →
  formulas_succeed template →
  ∃ rows σ', processRows cellSchema template inputs numRows σ = (Return rows, σ').
Proof.
  intros Hrun Hok. unfold processRows. rewrite Hrun, processRows_loop_with_id.
  apply processRows_loop_Return; [done|].
  destruct (compile_Return _ _ _ Hrun) as (st & <- & Hinv & _). apply Hinv.
Qed.

Lemma processRows_chain cellSchema template inputs numRows σ order rows σ' :
  compileExecutionOrder template cellSchema = Return order →
  processRows cellSchema template inputs numRows σ = (Return rows, σ') →
  length rows = Z.to_nat numRows ∧ NoDup rows ∧
  ∃ calls,
    formula_calls σ' = formula_calls σ ++ calls ∧
    call_cell <$> calls = mjoin (replicate (Z.to_nat numRows) order) ∧
    ∀ call, call ∈ calls →
      ∃ i, rows !! i = Some (ctx_currRow (call_context call)) ∧
        prevRow (call_args call) =
          match i with
          | O => None
          | S j => (λ l, heap σ' !!! l) <$> rows !! j
          end.
Proof.
  intros Hrun Hrows. unfold processRows in Hrows.
  rewrite Hrun, processRows_loop_with_id in Hrows.
  apply processRows_loop_chain in Hrows
    as (new & calls & -> & Hlen & Hcalls & Hcells & _ & _ & Hnodup & Hall);
    [|done|apply NoDup_nil_2|done].
  simpl in *. split_and!; [done..|].
  exists calls. split_and!; [done..|].
  intros call Hin. destruct (Hall call Hin) as (i & _ & Hi). by exists i.
Qed.

Lemma BasicExample_formulas_succeed : formulas_succeed BasicExample.template.
Proof.
  intros c cellDef ctx Hdef. unfold BasicExample.template in Hdef.
  apply lookup_insert_Some in Hdef as [[_ <-]|[_ Hdef]]; simpl; [by eauto|].
  apply lookup_singleton_Some in Hdef as [_ <-]. simpl.
  destruct (prevRow ctx); by eauto.
Qed.

Lemma ConstantExample_wrap_insensitive : wrap_insensitive ConstantExample.template.
Proof.
  intros c cellDef ctx Hdef. unfold ConstantExample.template in Hdef.
  by apply lookup_singleton_Some in Hdef as [_ <-].
Qed.

(** ** Claims about row evaluation *)

(** A run never lacks fuel, and one that throws after compiling has had a
    formula fail. *)
Lemma evaluateRow_loop_no_OutOfFuel store template context rowState executionOrder :
  ∀ σ, (evaluateRow_loop_with store template context rowState executionOrder σ).1
       ≠ OutOfFuel.
Proof.
  induction executionOrder as [|cellName rest IH]; intros σ; simpl; [done|].
  destruct (template !! cellName) as [cellDef|]; [|done].
  destruct (formula cellDef _) as [e|result]; [done|]. apply IH.
Qed.

Lemma processRows_loop_no_OutOfFuel store template executionOrder inputs remaining :
  ∀ rows prevRowState σ,
    (processRows_loop_with store template executionOrder inputs remaining
       rows prevRowState σ).1 ≠ OutOfFuel.
Proof.
  induction remaining as [|k IH]; intros rows prev σ; simpl; [done|].
  match goal with |- context [evaluateRow_loop_with ?s ?t ?c ?r ?o ?x] =>
    pose proof (evaluateRow_loop_no_OutOfFuel s t c r o x) as Hrow;
    destruct (evaluateRow_loop_with s t c r o x) as [[[]| |] σ1]
  end; simpl in *; [apply IH|done|done].
Qed.

Lemma evaluateRow_loop_calls_extend store template context rowState executionOrder :
  ∀ σ, ∃ calls,
    formula_calls (evaluateRow_loop_with store template context rowState
                     executionOrder σ).2 = formula_calls σ ++ calls.
Proof.
  induction executionOrder as [|cellName rest IH]; intros σ; simpl.
  { exists []. by rewrite app_nil_r. }
  destruct (template !! cellName) as [cellDef|]; [|exists []; by rewrite app_nil_r].
  destruct (formula cellDef _) as [e|result]; [by eexists|].
  destruct (IH (set_property rowState cellName (store result)
                  (record_call cellName context σ))) as [calls ->].
  simpl. eexists. by rewrite <- app_assoc.
Qed.

Lemma evaluateRow_loop_failed_call store template context rowState executionOrder :
  ∀ σ e σ',
    evaluateRow_loop_with store template context rowState executionOrder σ
      = (Throw e, σ') →
    (∀ c, c ∈ executionOrder → is_Some (template !! c)) →
    ∃ calls call cellDef,
      formula_calls σ' = formula_calls σ ++ calls ∧ call ∈ calls ∧
      template !! call_cell call = Some cellDef ∧
      formula cellDef (call_args call) = inl e.
Proof.
  induction executionOrder as [|cellName rest IH]; intros σ e σ' Hrun Hdef;
    simpl in Hrun; [done|].
  destruct (Hdef cellName (list_elem_of_here _ _)) as [cellDef Hc]. rewrite Hc in Hrun.
  destruct (formula cellDef (read_context (heap σ) context)) as [e0|result] eqn:Hf.
  - simplify_eq. eexists [_], _, cellDef. simpl.
    split_and!; [done|apply list_elem_of_here|done|done].
  - destruct (IH _ _ _ Hrun) as (calls & call & def & Hcalls & Hin & Hcall).
    { intros c Hin. apply Hdef. by right. }
    eexists (_ :: calls), call, def. split_and!; [|by right|apply Hcall..].
    rewrite Hcalls. simpl. by rewrite <- app_assoc.
Qed.

Lemma processRows_loop_failed_call store template executionOrder inputs remaining :
  ∀ rows prevRowState σ e σ',
    processRows_loop_with store template executionOrder inputs remaining
      rows prevRowState σ = (Throw e, σ') →
    (∀ c, c ∈ executionOrder → is_Some (template !! c)) →
    ∃ calls call cellDef,
      formula_calls σ' = formula_calls σ ++ calls ∧ call ∈ calls ∧
      template !! call_cell call = Some cellDef ∧
      formula cellDef (call_args call) = inl e.
Proof.
  induction remaining as [|k IH]; intros rows prev σ e σ' Hrun Hdef; simpl in Hrun; [done|].
  match type of Hrun with context [evaluateRow_loop_with ?s ?t ?c ?r ?o ?x] =>
    destruct (evaluateRow_loop_calls_extend s t c r o x) as [calls1 Hcalls1];
    destruct (evaluateRow_loop_with s t c r o x) as [[[]|e1|] σ1] eqn:Hrow
  end; [| |done].
  - destruct (IH _ _ _ _ _ Hrun Hdef) as (calls & call & def & Hcalls & Hin & Hcall).
    exists (calls1 ++ calls), call, def. split_and!; [|apply elem_of_app; by right|apply Hcall..].
    rewrite Hcalls. simpl in Hcalls1. by rewrite Hcalls1, app_assoc.
  - simplify_eq.
    destruct (evaluateRow_loop_failed_call _ _ _ _ _ _ _ _ Hrow Hdef)
      as (calls & call & def & Hcalls & Hin & Hcall).
    by exists calls, call, def.
Qed.

Lemma failed_call_excluded template σ σ' calls call cellDef e :
  formula_calls σ' = formula_calls σ ++ calls → call ∈ calls →
  template !! call_cell call = Some cellDef →
  formula cellDef (call_args call) = inl e →
  ¬ no_formula_fails template σ σ'.
Proof.
  intros Hcalls Hin Hdef Hf Hall. unfold no_formula_fails, calls_since in Hall.
  rewrite Hcalls, drop_app_length in Hall.
  rewrite forallb_forall in Hall. specialize (Hall call).
  unfold call_returns in Hall. rewrite Hdef, Hf in Hall.
  by discriminate Hall; apply list_elem_of_In.
Qed.

Lemma processRows_loop_completes store template executionOrder inputs remaining σ :
  (∀ c, c ∈ executionOrder → is_Some (template !! c)) →
  no_formula_fails template σ
    (processRows_loop_with store template executionOrder inputs remaining [] None σ).2 →
  ∃ rows,
    (processRows_loop_with store template executionOrder inputs remaining [] None σ).1
    = Return rows.
Proof.
  intros Hdef Hall.
  pose proof (processRows_loop_no_OutOfFuel store template executionOrder inputs
                remaining [] None σ) as Hfuel.
  destruct (processRows_loop_with store template executionOrder inputs remaining
              [] None σ) as [[rows|e|] σ'] eqn:Hrun; simpl in *; [by eauto| |done].
  destruct (processRows_loop_failed_call _ _ _ _ _ _ _ _ _ _ Hrun Hdef)
    as (calls & call & def & Hcalls & Hin & Hcell & Hf).
  by destruct (failed_call_excluded template σ σ' calls call def e).
Qed.

(** C3. Row count: for a non-negative [n], [processRows] returns exactly
    [n] rows when compilation succeeds and no formula invoked during the
    call fails; it never ends otherwise than by returning or throwing, and
    whenever it returns it returns exactly [n] rows. For a cyclic template it
    throws the [CircularDependencyError] of the compiler, whatever [n] is,
    having allocated no row and called no formula. *)
Theorem processRows_row_count cellSchema template inputs numRows σ :
  (0 ≤ numRows)%Z →
  let r := processRows cellSchema template inputs numRows σ in
  r.1 ≠ OutOfFuel ∧
  (∀ rows, r.1 = Return rows → Z.of_nat (length rows) = numRows) ∧
  (∀ order, compileExecutionOrder template cellSchema = Return order →
     no_formula_fails template σ r.2 →
     ∃ rows, r.1 = Return rows ∧ Z.of_nat (length rows) = numRows) ∧
  (well_typed template cellSchema → cyclic template cellSchema →
     ∃ y, r = (Throw (CircularDependencyError (circular_message y)), σ) ∧
          on_cycle template y).
Proof.
  intros Hn. simpl.
  assert (∀ rows, (processRows cellSchema template inputs numRows σ).1 = Return rows →
            Z.of_nat (length rows) = numRows) as Hcount.
  { intros rows Hret.
    destruct (processRows cellSchema template inputs numRows σ) as [o σ'] eqn:Hrows.
    simpl in Hret. subst o.
    destruct (compileExecutionOrder template cellSchema) as [order|e|] eqn:Hrun.
    - destruct (processRows_chain _ _ _ _ _ _ _ _ Hrun Hrows) as [Hlen _]. lia.
    - compile_returned Hrun Hrows.
    - compile_returned Hrun Hrows. }
  split_and!; [|done| |].
  - unfold processRows. pose proof (compile_ends_well template cellSchema) as Hend.
    destruct (compileExecutionOrder template cellSchema) as [order|e|]; [|done..].
    rewrite processRows_loop_with_id. apply processRows_loop_no_OutOfFuel.
  - intros order Hrun Hall.
    destruct (compile_Return _ _ _ Hrun) as (st & Horder & Hinv & _).
    assert (∃ rows, (processRows cellSchema template inputs numRows σ).1 = Return rows)
      as [rows Hret].
    { unfold processRows in *. rewrite Hrun in *. rewrite processRows_loop_with_id in *.
      apply processRows_loop_completes; [|done].
      subst order. apply Hinv. }
    exists rows. split; [done|]. by apply Hcount.
  - intros Hwt Hcyc.
    destruct (compile_cyclic template cellSchema Hwt Hcyc) as (y & Hrun & _ & Hy).
    exists y. unfold processRows. by rewrite Hrun.
Qed.

Lemma processRows_row_count_witness :
  (∃ rows,
     (processRows GuardedExample.cellSchema GuardedExample.template 0 3
        GuardedExample.initial).1 = Return rows ∧
     Z.of_nat (length rows) = 3%Z) ∧
  (∃ y, processRows CycleExample.cellSchema CycleExample.template 0 0
          BasicExample.initial
          = (Throw (CircularDependencyError (circular_message y)), BasicExample.initial) ∧
        on_cycle CycleExample.template y).
Proof.
  split.
  - destruct (processRows_row_count GuardedExample.cellSchema GuardedExample.template
                0 3 GuardedExample.initial ltac:(lia)) as (_ & _ & Hreturns & _).
    apply (Hreturns ["rate"]).
    + vm_compute. reflexivity.
    + vm_compute. reflexivity.
  - destruct (processRows_row_count CycleExample.cellSchema CycleExample.template
                0 0 BasicExample.initial ltac:(lia)) as (_ & _ & _ & Hthrows).
    apply Hthrows.
    + apply CycleExample_well_typed.
    + apply CycleExample_cyclic.
Defined.

(** C4. Previous-row chaining: in a completed [processRows], the formulas
    are called once per column of the compiled order for each row, and every
    call made while row [i] is evaluated receives as [prevRow] the object of
    row [i - 1] with the values it finally holds, for every column; for row
    [0] it receives [null]. *)
Theorem processRows_prevRow_chaining cellSchema template inputs numRows σ rows σ' :
  processRows cellSchema template inputs numRows σ = (Return rows, σ') →
  ∃ order calls,
    compileExecutionOrder template cellSchema = Return order ∧
    NoDup rows ∧
    formula_calls σ' = formula_calls σ ++ calls ∧
    call_cell <$> calls = mjoin (replicate (Z.to_nat numRows) order) ∧
    ∀ call, call ∈ calls →
      ∃ i, rows !! i = Some (ctx_currRow (call_context call)) ∧
        prevRow (call_args call) =
          match i with
          | O => None
          | S j => (λ l, heap σ' !!! l) <$> rows !! j
          end.
Proof.
  intros Hrows.
  destruct (compileExecutionOrder template cellSchema) as [order|e|] eqn:Hrun.
  - destruct (processRows_chain _ _ _ _ _ _ _ _ Hrun Hrows)
      as (_ & Hnodup & calls & Hcalls & Hcells & Hall).
    by exists order, calls.
  - compile_returned Hrun Hrows.
  - compile_returned Hrun Hrows.
Qed.

Lemma processRows_prevRow_chaining_witness :
  ∃ rows σ' order calls,
    processRows BasicExample.cellSchema BasicExample.template 0 3 BasicExample.initial
      = (Return rows, σ') ∧
    compileExecutionOrder BasicExample.template BasicExample.cellSchema = Return order ∧
    NoDup rows ∧
    formula_calls σ' = formula_calls BasicExample.initial ++ calls ∧
    call_cell <$> calls = mjoin (replicate (Z.to_nat 3) order) ∧
    ∀ call, call ∈ calls →
      ∃ i, rows !! i = Some (ctx_currRow (call_context call)) ∧
        prevRow (call_args call) =
          match i with
          | O => None
          | S j => (λ l, heap σ' !!! l) <$> rows !! j
          end.
Proof.
  destruct (processRows BasicExample.cellSchema BasicExample.template 0 3
              BasicExample.initial) as [[rows| |] σ'] eqn:Hrows;
    [|by vm_compute in Hrows..].
  destruct (processRows_prevRow_chaining _ _ _ _ _ _ _ Hrows) as (order & calls & H).
  by exists rows, σ', order, calls.
Defined.

(** C5. The basic example: schema [a, b], [b] counting up from
    [inputs.initialValue], [a] copying [b] of the same row; with
    [{ initialValue: 5 }] and three rows the result is
    [{a:5,b:5}, {a:6,b:6}, {a:7,b:7}]. *)
Theorem BasicExample_rows inputs σ :
  inputs < length (heap σ) →
  heap σ !!! inputs = {[ "initialValue" := VNumber 5 ]} →
  returned_rows (processRows BasicExample.cellSchema BasicExample.template inputs 3 σ)
  = Return [ {[ "a" := VNumber 5; "b" := VNumber 5 ]};
             {[ "a" := VNumber 6; "b" := VNumber 6 ]};
             {[ "a" := VNumber 7; "b" := VNumber 7 ]} ].
Proof.
  intros Hvalid Hinputs.
  rewrite (processRows_any_heap _ _ _ inputs 0 σ BasicExample.initial);
    [by vm_compute|done|simpl; lia|done].
Qed.

Lemma BasicExample_rows_witness :
  returned_rows (processRows BasicExample.cellSchema BasicExample.template 0 3
                   BasicExample.initial)
  = Return [ {[ "a" := VNumber 5; "b" := VNumber 5 ]};
             {[ "a" := VNumber 6; "b" := VNumber 6 ]};
             {[ "a" := VNumber 7; "b" := VNumber 7 ]} ].
Proof.
  apply BasicExample_rows; [simpl; lia|reflexivity].
Defined.

(** C7. Determinism: the rows returned by [processRows] for a schema, a
    template and a row count depend on nothing but the contents of the
    inputs object. Two calls with inputs of equal contents return equal
    row sequences, wherever they run; in particular a call repeated after
    the first one returns the same rows again. The formulas are functions
    of what their context holds. *)
Theorem processRows_deterministic cellSchema template numRows :
  (∀ inputs1 inputs2 σ1 σ2,
     inputs1 < length (heap σ1) → inputs2 < length (heap σ2) →
     heap σ1 !!! inputs1 = heap σ2 !!! inputs2 →
     returned_rows (processRows cellSchema template inputs1 numRows σ1) =
     returned_rows (processRows cellSchema template inputs2 numRows σ2)) ∧
  (∀ inputs σ,
     inputs < length (heap σ) →
     returned_rows
       (processRows cellSchema template inputs numRows
          (processRows cellSchema template inputs numRows σ).2) =
     returned_rows (processRows cellSchema template inputs numRows σ)).
Proof.
  split.
  - intros inputs1 inputs2 σ1 σ2. apply processRows_any_heap.
  - intros inputs σ Hvalid.
    destruct (processRows_frame cellSchema template inputs numRows σ) as [Hlen Hold].
    apply processRows_any_heap; [simpl in Hlen; lia|done|by apply Hold].
Qed.

Lemma processRows_deterministic_witness :
  returned_rows
    (processRows BasicExample.cellSchema BasicExample.template 0 3
       (processRows BasicExample.cellSchema BasicExample.template 0 3
          BasicExample.initial).2) =
  returned_rows
    (processRows BasicExample.cellSchema BasicExample.template 0 3 BasicExample.initial).
Proof.
  apply (processRows_deterministic BasicExample.cellSchema BasicExample.template 3).
  simpl. lia.
Defined.

(** C8. Frame of [evaluateRow]: a call allocates nothing and writes no
    object other than the current row, whether it completes or a formula
    throws. Hence the previous row and the inputs, being other objects than
    the current row, hold after the call what they held before it. The
    formulas only read their context. *)
Theorem evaluateRow_frame template executionOrder rowState prevRowState inputs σ :
  let σ' := (evaluateRow template executionOrder rowState prevRowState inputs σ).2 in
  length (heap σ') = length (heap σ) ∧
  (∀ l, l ≠ rowState → heap σ' !! l = heap σ !! l) ∧
  (∀ p, prevRowState = Some p → p ≠ rowState → heap σ' !!! p = heap σ !!! p) ∧
  (inputs ≠ rowState → heap σ' !!! inputs = heap σ !!! inputs).
Proof.
  unfold evaluateRow. rewrite evaluateRow_loop_with_id. simpl. split_and!.
  - apply evaluateRow_loop_frame.
  - apply evaluateRow_loop_frame.
  - intros p _ Hp. by apply evaluateRow_loop_frame_total.
  - intros Hi. by apply evaluateRow_loop_frame_total.
Qed.

Lemma evaluateRow_frame_witness :
  let σ := {| heap := [ {[ "initialValue" := VNumber 5 ]};
                        {[ "a" := VNumber 5; "b" := VNumber 5 ]}; ∅ ];
              formula_calls := [] |} in
  let σ' := (evaluateRow BasicExample.template ["b"; "a"] 2 (Some 1) 0 σ).2 in
  heap σ' !!! 1 = heap σ !!! 1 ∧ heap σ' !!! 0 = heap σ !!! 0.
Proof.
  intros σ σ'.
  destruct (evaluateRow_frame BasicExample.template ["b"; "a"] 2 (Some 1) 0 σ)
    as (_ & _ & Hprev & Hinputs).
  split.
  - by apply Hprev.
  - by apply Hinputs.
Defined.

(** ** The two engines compared *)

(** C9, as stated, fails: for the one-column template whose formula is the
    constant [1], the earlier engine returns [{a: {evaluatedValue: 1}}] and
    the current one [{a: 1}]. *)
Lemma engines_return_equal_rows_counterexample : ¬ engines_return_equal_rows.
Proof.
  intros Hequal.
  specialize (Hequal ConstantExample.schema ConstantExample.template 0 1%Z
                ConstantExample.initial
                [ {[ "a" := VCellState (VNumber 1) ]} ] [ {[ "a" := VNumber 1 ]} ]).
  assert ([ ({[ "a" := VCellState (VNumber 1) ]} : object) ]
          = [ {[ "a" := VNumber 1 ]} ]) as Heq.
  { apply Hequal; vm_compute; reflexivity. }
  apply (f_equal (λ rows : list object, rows !! 0 ≫= (λ row, row !! "a"))) in Heq.
  vm_compute in Heq. discriminate Heq.
Qed.

Lemma returned_rows_shape store (P : value → Prop) template executionOrder inputs
    remaining σ rows :
  (∀ v, P (store v)) →
  returned_rows (processRows_loop_with store template executionOrder inputs remaining
                   [] None σ) = Return rows →
  Forall (row_shape P executionOrder) rows ∧ length rows = remaining.
Proof.
  intros Hstore Hrows.
  destruct (processRows_loop_with _ _ _ _ _ _ _ _) as [[locs| |] σ'] eqn:Hrun; [|done..].
  simpl in Hrows. simplify_eq.
  destruct (processRows_loop_shape store P template executionOrder inputs remaining
              Hstore _ _ _ _ _ Hrun) as [Hall Hlen]; [done|].
  split; [by apply Forall_fmap|]. by rewrite length_fmap.
Qed.

(** C9, amended. The two engines compile the same order and differ in what
    [evaluateRow] stores: [{ evaluatedValue: result }] in [src/engine.ts],
    [result] itself in the current engine. Where neither throws they return
    as many rows, over the same columns, the earlier engine holding
    [{ evaluatedValue: _ }] objects. For a template whose formulas give the
    same result on rows of either shape, both calls end alike: with the same
    error, or with rows in which the earlier engine holds
    [{ evaluatedValue: v }] wherever the current one holds [v]. *)
Theorem engines_agree_up_to_wrapping schema template inputs numRows σ :
  (∀ rows1 rows2,
     returned_rows (Legacy.processRows schema template inputs numRows σ) = Return rows1 →
     returned_rows (processRows schema template inputs numRows σ) = Return rows2 →
     Forall2 (λ row1 row2, dom row1 = dom row2 ∧ map_Forall (λ _ v, is_cell_state v) row1)
       rows1 rows2) ∧
  (inputs < length (heap σ) → wrap_insensitive template →
   returned_rows (Legacy.processRows schema template inputs numRows σ) =
   wrap_rows (returned_rows (processRows schema template inputs numRows σ))).
Proof.
  unfold Legacy.processRows, processRows.
  destruct (compileExecutionOrder template schema) as [order|e|]; [|done..].
  rewrite processRows_loop_with_id, Legacy_processRows_loop_with. split.
  - intros rows1 rows2 Hrows1 Hrows2.
    apply (returned_rows_shape VCellState is_cell_state) in Hrows1 as [Hall1 Hlen1];
      [|by eexists].
    apply (returned_rows_shape id (λ _, True)) in Hrows2 as [Hall2 Hlen2]; [|done].
    eapply Forall2_impl.
    { apply Forall_Forall2_same_length; [exact Hall1|exact Hall2|lia]. }
    simpl. intros row1 row2 [[Hdom1 Hcells] [Hdom2 _]]. split; [congruence|done].
  - intros Hinp Hwrap.
    by apply (processRows_loop_sim VCellState VCellState id template order inputs inputs).
Qed.

Lemma engines_agree_up_to_wrapping_witness :
  returned_rows (Legacy.processRows ConstantExample.schema ConstantExample.template
                   0 2 ConstantExample.initial) =
  wrap_rows (returned_rows (processRows ConstantExample.schema ConstantExample.template
                              0 2 ConstantExample.initial)).
Proof.
  apply (proj2 (engines_agree_up_to_wrapping ConstantExample.schema
                  ConstantExample.template 0 2 ConstantExample.initial)).
  - simpl. lia.
  - apply ConstantExample_wrap_insensitive.
Defined.

(** * Further properties of the compiler *)

Lemma compile_Return_iff template cellSchema :
  (∃ order, compileExecutionOrder template cellSchema = Return order) ↔
  all_defined template cellSchema ∧ ¬ cyclic template cellSchema.
Proof.
  split.
  - intros [order Hrun]. split; [|by eapply compile_Return_acyclic].
    intros x Hx%(compile_reachable _ _ _ _ Hrun).
    destruct (compile_Return _ _ _ Hrun) as (st & <- & Hinv & _).
    by apply (inv_defined _ _ _ Hinv).
  - intros [Hdef Hacyc]. pose proof (compile_ends_well template cellSchema) as Hend.
    destruct (compileExecutionOrder template cellSchema) as [order|e|]; [by eauto| |done].
    destruct Hend as [(y & _ & Hy)|(_ & x & Hx & Hnone)].
    + destruct Hacyc. by exists y.
    + destruct (Hdef x Hx) as [def Hsome]. congruence.
Qed.

Lemma reachable_names template schema1 schema2 x :
  (∀ c, c ∈ cell_names schema1 → c ∈ cell_names schema2) →
  reachable template schema1 x → reachable template schema2 x.
Proof. intros Hsub (r & Hr & Hpath). exists r. split; [by apply Hsub|done]. Qed.

(** X1. [compileExecutionOrder] returns an order exactly when every name
    reachable from the schema through dependency lists has a definition in
    the template and no reachable column lies on a cycle. *)
Theorem compileExecutionOrder_returns_iff template cellSchema :
  (∃ order, compileExecutionOrder template cellSchema = Return order) ↔
  all_defined template cellSchema ∧ ¬ cyclic template cellSchema.
Proof. apply compile_Return_iff. Qed.

(** X2. Whatever the template, the traversal ends: with an order, with a
    [CircularDependencyError] whose message names a reachable column that
    lies on a cycle, or with the [TypeError] of reading the dependencies of
    a reachable name that has no definition. *)
Theorem compileExecutionOrder_failures template cellSchema e :
  compileExecutionOrder template cellSchema = Throw e →
  (∃ y, e = CircularDependencyError (circular_message y) ∧
        reachable template cellSchema y ∧ on_cycle template y) ∨
  (e = TypeError ∧ ∃ x, reachable template cellSchema x ∧ template !! x = None).
Proof.
  intros Hrun. pose proof (compile_ends_well template cellSchema) as Hend.
  by rewrite Hrun in Hend.
Qed.

Lemma compileExecutionOrder_failures_witness :
  (∃ y, TypeError = CircularDependencyError (circular_message y) ∧
        reachable MissingExample.template MissingExample.cellSchema y ∧
        on_cycle MissingExample.template y) ∨
  (TypeError = TypeError ∧
   ∃ x, reachable MissingExample.template MissingExample.cellSchema x ∧
        MissingExample.template !! x = None).
Proof.
  apply compileExecutionOrder_failures. vm_compute. reflexivity.
Defined.

(** X3. The returned order lists, once each, exactly the columns reachable
    from the schema's columns: a definition that nothing reachable depends
    on is left out, whatever the template holds. *)
Theorem compileExecutionOrder_reachable template cellSchema order :
  compileExecutionOrder template cellSchema = Return order →
  NoDup order ∧ ∀ x, x ∈ order ↔ reachable template cellSchema x.
Proof.
  intros Hrun. split; [by eapply compile_NoDup|].
  intros x. by apply compile_reachable.
Qed.

Lemma compileExecutionOrder_reachable_witness :
  NoDup ["b"; "a"] ∧
  ∀ x, x ∈ ["b"; "a"] ↔ reachable BasicExample.template BasicExample.cellSchema x.
Proof.
  apply compileExecutionOrder_reachable. vm_compute. reflexivity.
Defined.

(** X4. Reordering the schema changes neither whether an order is returned
    nor which columns it holds: for two schemas with the same names, one
    compiles if and only if the other does, and the two orders are
    permutations of each other. *)
Theorem compileExecutionOrder_schema_permutation template schema1 schema2 :
  cell_names schema1 ≡ₚ cell_names schema2 →
  ((∃ order, compileExecutionOrder template schema1 = Return order) ↔
   (∃ order, compileExecutionOrder template schema2 = Return order)) ∧
  ∀ order1 order2,
    compileExecutionOrder template schema1 = Return order1 →
    compileExecutionOrder template schema2 = Return order2 →
    order1 ≡ₚ order2.
Proof.
  intros Hperm.
  assert (∀ x, reachable template schema1 x ↔ reachable template schema2 x) as Hreach.
  { intros x. split; apply reachable_names; intros c; by rewrite Hperm. }
  split.
  - rewrite !compile_Return_iff. unfold all_defined, cyclic.
    split; intros [Hdef Hacyc]; (split; [intros x Hx; by apply Hdef, Hreach|]);
      intros (x & Hx & Hcyc); apply Hacyc; exists x; (split; [by apply Hreach|done]).
  - intros order1 order2 Hrun1 Hrun2.
    apply NoDup_Permutation; [by eapply compile_NoDup..|].
    intros x. by rewrite (compile_reachable _ _ _ _ Hrun1), (compile_reachable _ _ _ _ Hrun2).
Qed.

Lemma compileExecutionOrder_schema_permutation_witness :
  ((∃ order, compileExecutionOrder BasicExample.template BasicExample.cellSchema
               = Return order) ↔
   (∃ order, compileExecutionOrder BasicExample.template
               (reverse BasicExample.cellSchema) = Return order)) ∧
  ["b"; "a"] ≡ₚ ["b"; "a"].
Proof.
  destruct (compileExecutionOrder_schema_permutation BasicExample.template
              BasicExample.cellSchema (reverse BasicExample.cellSchema))
    as [Hiff Hperm].
  - vm_compute. apply perm_swap.
  - split; [exact Hiff|]. apply Hperm; vm_compute; reflexivity.
Defined.

(** X5. Columns appended to a schema are visited last: the order compiled
    for the shorter schema is a prefix of the order compiled for the longer
    one. *)
Theorem compileExecutionOrder_append template cellSchema more order' :
  compileExecutionOrder template (cellSchema ++ more) = Return order' →
  ∃ order, compileExecutionOrder template cellSchema = Return order ∧
           order `prefix_of` order'.
Proof.
  unfold compileExecutionOrder. rewrite for_of_app. intros Hrun.
  destruct (for_of (visit_root template) cellSchema visit_init) as [st1| |] eqn:Hfirst;
    [|done..].
  destruct (for_of (visit_root template) more st1) as [st'| |] eqn:Hsecond; [|done..].
  simplify_eq. exists (executionOrder st1). split; [done|].
  destruct (for_of_visit_post template (cellSchema ++ more) name (visit_root template)
              cellSchema) with (st := visit_init) (st' := st1) as [(Hinv1 & _) _];
    [|apply visit_inv_init|done|].
  { intros cell s s' Hc Hs Hr. apply visit_root_Return; [done| |done].
    apply elem_of_app. by left. }
  destruct (for_of_visit_post template (cellSchema ++ more) name (visit_root template)
              more) with (st := st1) (st' := st') as [(_ & _ & Hprefix) _]; [|done..].
  intros cell s s' Hc Hs Hr. apply visit_root_Return; [done| |done].
  apply elem_of_app. by right.
Qed.

Lemma compileExecutionOrder_append_witness :
  ∃ order, compileExecutionOrder BasicExample.template [ {| name := "b"; type := TNumber |} ]
             = Return order ∧
           order `prefix_of` ["b"; "a"].
Proof.
  apply (compileExecutionOrder_append BasicExample.template
           [ {| name := "b"; type := TNumber |} ] [ {| name := "a"; type := TNumber |} ]).
  vm_compute. reflexivity.
Defined.

(** * Further properties of row evaluation *)

Section row_evaluation_more.
Context (store : value → value) (template : RowTemplate) (context : Context)
        (rowState : loc).

Local Abbreviation run := (evaluateRow_loop_with store template context rowState).

(** Evaluating an order is evaluating a first part, then the rest. *)
Lemma evaluateRow_loop_app order1 order2 σ :
  run (order1 ++ order2) σ =
    match run order1 σ with
    | (Return _, σ1) => run order2 σ1
    | (Throw e, σ1) => (Throw e, σ1)
    | (OutOfFuel, σ1) => (OutOfFuel, σ1)
    end.
Proof.
  revert σ. induction order1 as [|cellName rest IH]; intros σ; simpl; [done|].
  destruct (template !! cellName) as [cellDef|]; [|done].
  destruct (formula cellDef _) as [e|result]; [done|]. apply IH.
Qed.

(** Columns that are not in the order keep what they hold. *)
Lemma evaluateRow_loop_untouched order c : ∀ σ,
  c ∉ order →
  (heap (run order σ).2 !!! rowState) !! c = (heap σ !!! rowState) !! c.
Proof.
  induction order as [|cellName rest IH]; intros σ Hc; simpl; [done|].
  apply not_elem_of_cons in Hc as [Hne Hc].
  destruct (template !! cellName) as [cellDef|]; [|done].
  destruct (formula cellDef _) as [e|result]; [done|].
  rewrite IH by done. simpl.
  destruct (decide (rowState < length (heap σ))) as [Hlt|Hge].
  - rewrite list_lookup_total_insert_eq by done. by apply lookup_insert_ne.
  - rewrite list_insert_ge by lia. done.
Qed.

(** The [k]-th invocation of a row evaluation happens after the first [k]
    columns have completed, for the [k]-th column, on the row as those
    columns left it. *)
Lemma evaluateRow_loop_call_at order : ∀ σ,
  ∃ calls,
    formula_calls (run order σ).2 = formula_calls σ ++ calls ∧
    ∀ k call, calls !! k = Some call →
      (run (take k order) σ).1 = Return tt ∧
      order !! k = Some (call_cell call) ∧
      call_context call = context ∧
      call_args call = read_context (heap (run (take k order) σ).2) context.
Proof.
  induction order as [|cellName rest IH]; intros σ; simpl.
  { exists []. split; [by rewrite app_nil_r|]. intros k call Hk. by rewrite lookup_nil in Hk. }
  destruct (template !! cellName) as [cellDef|] eqn:Hdef.
  2:{ exists []. split; [by rewrite app_nil_r|].
      intros k call Hk. by rewrite lookup_nil in Hk. }
  set (this := {| call_cell := cellName; call_context := context;
                  call_args := read_context (heap σ) context |}).
  destruct (formula cellDef (read_context (heap σ) context)) as [e|result] eqn:Hf.
  { exists [this]. split; [done|].
    intros [|k] call Hk; [|by destruct k].
    simpl in Hk. by simplify_eq. }
  destruct (IH (set_property rowState cellName (store result)
                  (record_call cellName context σ))) as (calls & Hcalls & Hall).
  exists (this :: calls). split.
  { rewrite Hcalls. simpl. by rewrite <- app_assoc. }
  intros [|k] call Hk; simpl in Hk.
  - by simplify_eq.
  - simpl. rewrite Hdef, Hf. by apply Hall.
Qed.

(** A row evaluation that throws, over columns that all have a definition,
    throws what the formula it invoked last has thrown. *)
Lemma evaluateRow_loop_Throw order : ∀ σ e σ',
  run order σ = (Throw e, σ') →
  (∀ c, c ∈ order → is_Some (template !! c)) →
  ∃ call cellDef,
    last (formula_calls σ') = Some call ∧
    template !! call_cell call = Some cellDef ∧
    formula cellDef (call_args call) = inl e.
Proof.
  induction order as [|cellName rest IH]; intros σ e σ' Hrun Hdef; simpl in Hrun; [done|].
  destruct (Hdef cellName (list_elem_of_here _ _)) as [cellDef Hc]. rewrite Hc in Hrun.
  destruct (formula cellDef (read_context (heap σ) context)) as [e0|result] eqn:Hf.
  - simplify_eq. eexists _, cellDef. simpl. rewrite last_snoc. by split_and!.
  - eapply IH; [done|]. intros c Hin. apply Hdef. by right.
Qed.

End row_evaluation_more.

(** With an order that puts dependencies first, every formula finds the
    columns it depends on in the current row, holding what they hold when
    the evaluation ends. *)
Lemma evaluateRow_loop_resolved store template context order σ :
  ctx_currRow context < length (heap σ) →
  NoDup order → dependencies_first template order →
  let r := evaluateRow_loop_with store template context (ctx_currRow context) order σ in
  ∃ calls,
    formula_calls r.2 = formula_calls σ ++ calls ∧
    ∀ call, call ∈ calls →
      call_context call = context ∧
      ∀ d, depends_on template (call_cell call) d →
        ∃ v, currRow (call_args call) !! d = Some v ∧
             (heap r.2 !!! ctx_currRow context) !! d = Some v.
Proof.
  intros Hvalid Hnodup Hfirst. simpl.
  destruct (evaluateRow_loop_call_at store template context (ctx_currRow context) order σ)
    as (calls & Hcalls & Hall).
  exists calls. split; [done|].
  intros call [k Hk]%list_elem_of_lookup.
  destruct (Hall k call Hk) as (Hret & Hcell & Hctx & Hargs). split; [done|].
  intros d Hd.
  destruct (Hfirst (call_cell call) d) as ([i Hi] & _ & Hlt);
    [by eapply list_elem_of_lookup_2|done|].
  specialize (Hlt i k Hi Hcell).
  assert (d ∈ take k order) as Hin.
  { apply list_elem_of_lookup. exists i. by rewrite lookup_take_lt. }
  destruct (evaluateRow_loop_shape store (λ _, True) template context
              (ctx_currRow context) (take k order) (λ _, I) σ Hvalid Hret)
    as [Hdom _]; [by apply map_Forall_lookup|].
  assert (is_Some ((heap (evaluateRow_loop_with store template context
                            (ctx_currRow context) (take k order) σ).2
                      !!! ctx_currRow context) !! d)) as [v Hv].
  { apply elem_of_dom. rewrite Hdom. apply elem_of_union_r. by apply elem_of_list_to_set. }
  exists v. rewrite Hargs. split; [done|].
  rewrite <- (take_drop k order) at 1. rewrite evaluateRow_loop_app.
  destruct (evaluateRow_loop_with store template context (ctx_currRow context)
              (take k order) σ) as [[[]| |] σk]; [|done..].
  rewrite evaluateRow_loop_untouched; [done|].
  rewrite <- (take_drop k order) in Hnodup.
  apply NoDup_app in Hnodup as (_ & Hdisj & _). by apply Hdisj.
Qed.

Section row_loop_more.
Context (store : value → value) (template : RowTemplate)
        (executionOrder : list string) (inputs : loc).

Local Abbreviation loop := (processRows_loop_with store template executionOrder inputs).

(** A property of the invocations of one row, relative to the row as it is
    left, holds of all invocations of a completed loop. *)
Lemma processRows_loop_calls_all (Q : object → formula_call → Prop) :
  (∀ prev σ,
     let r := length (heap σ) in
     let res := evaluateRow_loop_with store template
                  {| ctx_prevRow := prev; ctx_currRow := r; ctx_inputs := inputs |}
                  r executionOrder (alloc ∅ σ) in
     ∃ calls, formula_calls res.2 = formula_calls σ ++ calls ∧
       ∀ call, call ∈ calls →
         ctx_currRow (call_context call) = r ∧ Q (heap res.2 !!! r) call) →
  ∀ remaining rows prevRowState σ rows' σ',
    loop remaining rows prevRowState σ = (Return rows', σ') →
    Forall (λ l, l < length (heap σ)) rows → NoDup rows →
    prevRowState = last rows →
    ∃ calls, formula_calls σ' = formula_calls σ ++ calls ∧
      ∀ call, call ∈ calls →
        ∃ i l, rows' !! i = Some l ∧ ctx_currRow (call_context call) = l ∧
               Q (heap σ' !!! l) call.
Proof.
  intros Hrow.
  induction remaining as [|k IH]; intros rows prev σ rows' σ' Hrun Hvalid Hnodup Hprev;
    simpl in Hrun.
  { simplify_eq. exists []. split; [by rewrite app_nil_r|].
    intros call Hc. by apply elem_of_nil in Hc. }
  set (r := length (heap σ)) in *.
  set (context := {| ctx_prevRow := prev; ctx_currRow := r; ctx_inputs := inputs |}) in *.
  assert (∀ p, p ∈ rows → p < r) as Hlt by (by apply Forall_forall).
  destruct (Hrow prev σ) as (calls1 & Hcalls1 & Hall1). fold r context in Hcalls1, Hall1.
  pose proof (row_iteration_frame store template context executionOrder σ) as [Hlen _].
  simpl in Hlen. fold r in Hlen.
  destruct (evaluateRow_loop_with store template context r executionOrder (alloc ∅ σ))
    as [[[]| |] σ1]; [|done..].
  simpl in *.
  assert (Forall (λ l, l < length (heap σ1)) (rows ++ [r])) as Hvalid1.
  { apply Forall_app. split; [|apply Forall_singleton; lia].
    eapply Forall_impl; [done|]. simpl. fold r. lia. }
  assert (NoDup (rows ++ [r])) as Hnodup1.
  { apply NoDup_app. split_and!; [done| |apply NoDup_singleton].
    intros p Hp%Hlt ->%list_elem_of_singleton. lia. }
  destruct (processRows_loop_chain store template executionOrder inputs k _ _ _ _ _ Hrun)
    as (new & _ & Hrows' & _ & _ & _ & Hold & _); [done|done|by rewrite last_snoc|].
  destruct (IH _ _ _ _ _ Hrun) as (calls2 & Hcalls2 & Hall2);
    [done|done|by rewrite last_snoc|].
  exists (calls1 ++ calls2). split; [by rewrite Hcalls2, Hcalls1, app_assoc|].
  intros call [Hin|Hin]%elem_of_app; [|by apply Hall2].
  destruct (Hall1 call Hin) as [Hcur HQ].
  exists (length rows), r. split_and!; [|done|].
  - rewrite Hrows', <- app_assoc. by apply list_lookup_middle.
  - rewrite list_lookup_total_alt, Hold by lia. by rewrite <- list_lookup_total_alt.
Qed.

(** A loop that throws, over columns that all have a definition, throws
    what the formula it invoked last has thrown. *)
Lemma processRows_loop_Throw remaining : ∀ rows prevRowState σ e σ',
  loop remaining rows prevRowState σ = (Throw e, σ') →
  (∀ c, c ∈ executionOrder → is_Some (template !! c)) →
  ∃ call cellDef,
    last (formula_calls σ') = Some call ∧
    template !! call_cell call = Some cellDef ∧
    formula cellDef (call_args call) = inl e.
Proof.
  induction remaining as [|k IH]; intros rows prev σ e σ' Hrun Hdef; simpl in Hrun; [done|].
  match type of Hrun with context [evaluateRow_loop_with ?s ?t ?c ?r ?o ?x] =>
    destruct (evaluateRow_loop_with s t c r o x) as [[[]|e1|] σ1] eqn:Hrow
  end; [by eapply IH| |done].
  simplify_eq. by eapply evaluateRow_loop_Throw.
Qed.

(** The rows of a loop are newly allocated objects. *)
Lemma processRows_loop_fresh remaining : ∀ rows prevRowState σ rows' σ',
  loop remaining rows prevRowState σ = (Return rows', σ') →
  ∃ new, rows' = rows ++ new ∧ Forall (λ l, length (heap σ) ≤ l) new.
Proof.
  induction remaining as [|k IH]; intros rows prev σ rows' σ' Hrun; simpl in Hrun.
  { simplify_eq. exists []. by rewrite app_nil_r. }
  match type of Hrun with context [evaluateRow_loop_with ?s ?t ?c _ ?o _] =>
    pose proof (row_iteration_frame s t c o σ) as [Hlen _];
    destruct (evaluateRow_loop_with s t c (length (heap σ)) o (alloc ∅ σ))
      as [[[]| |] σ1]
  end; [|done..].
  simpl in Hlen. destruct (IH _ _ _ _ _ Hrun) as (new & -> & Hnew).
  exists (length (heap σ) :: new). split; [by rewrite <- app_assoc|].
  constructor; [done|]. eapply Forall_impl; [done|]. simpl. lia.
Qed.

(** Running [k1 + k2] iterations is running [k1], then [k2] more. *)
Lemma processRows_loop_split k1 k2 : ∀ rows prevRowState σ,
  prevRowState = last rows →
  loop (k1 + k2) rows prevRowState σ =
    match loop k1 rows prevRowState σ with
    | (Return rows1, σ1) => loop k2 rows1 (last rows1) σ1
    | (Throw e, σ1) => (Throw e, σ1)
    | (OutOfFuel, σ1) => (OutOfFuel, σ1)
    end.
Proof.
  induction k1 as [|k IH]; intros rows prev σ Hprev; simpl.
  { by rewrite Hprev. }
  destruct (evaluateRow_loop_with _ _ _ _ _ _) as [[[]| |] σ1]; [|done..].
  apply IH. by rewrite last_snoc.
Qed.

End row_loop_more.

(** ** processRows: what callers can rely on *)

(** X6. Dependencies are resolved when a formula runs: in a completed
    [processRows], whenever the formula of a column is called, every column
    listed in its [currRowDependencies] is already present in [currRow],
    with the value it has in the row that is returned. *)
Theorem processRows_dependencies_resolved cellSchema template inputs numRows σ rows σ' :
  processRows cellSchema template inputs numRows σ = (Return rows, σ') →
  ∃ calls, formula_calls σ' = formula_calls σ ++ calls ∧
    ∀ call, call ∈ calls →
      ∃ i l, rows !! i = Some l ∧ ctx_currRow (call_context call) = l ∧
        ∀ d, depends_on template (call_cell call) d →
          ∃ v, currRow (call_args call) !! d = Some v ∧ (heap σ' !!! l) !! d = Some v.
Proof.
  intros Hrows.
  destruct (compileExecutionOrder template cellSchema) as [order|e|] eqn:Hrun;
    [|compile_returned Hrun Hrows..].
  unfold processRows in Hrows. rewrite Hrun, processRows_loop_with_id in Hrows.
  eapply (processRows_loop_calls_all id template order inputs
            (λ row call, ∀ d, depends_on template (call_cell call) d →
               ∃ v, currRow (call_args call) !! d = Some v ∧ row !! d = Some v));
    [|done|done|apply NoDup_nil_2|done].
  intros prev σ0. simpl.
  destruct (evaluateRow_loop_resolved id template
              {| ctx_prevRow := prev; ctx_currRow := length (heap σ0);
                 ctx_inputs := inputs |} order (alloc ∅ σ0))
    as (calls & Hcalls & Hall).
  - simpl. rewrite length_app. simpl. lia.
  - by eapply compile_NoDup.
  - by eapply compile_dependencies_first.
  - exists calls. split; [done|]. intros call Hin.
    destruct (Hall call Hin) as [-> Hdeps]. by split.
Qed.

Lemma processRows_dependencies_resolved_witness :
  ∃ rows σ' calls,
    processRows BasicExample.cellSchema BasicExample.template 0 3 BasicExample.initial
      = (Return rows, σ') ∧
    formula_calls σ' = formula_calls BasicExample.initial ++ calls ∧
    ∀ call, call ∈ calls →
      ∃ i l, rows !! i = Some l ∧ ctx_currRow (call_context call) = l ∧
        ∀ d, depends_on BasicExample.template (call_cell call) d →
          ∃ v, currRow (call_args call) !! d = Some v ∧ (heap σ' !!! l) !! d = Some v.
Proof.
  destruct (processRows BasicExample.cellSchema BasicExample.template 0 3
              BasicExample.initial) as [[rows| |] σ'] eqn:Hrows;
    [|by vm_compute in Hrows..].
  destruct (processRows_dependencies_resolved _ _ _ _ _ _ _ Hrows) as (calls & H).
  by exists rows, σ', calls.
Defined.

(** X7. Returned rows are complete: for a well-typed template over a schema
    that has no column named ["__proto__"], every row that [processRows]
    returns has a value for each column of the schema and for nothing
    else. *)
Theorem processRows_rows_complete cellSchema template inputs numRows σ rows :
  "__proto__" ∉ cell_names cellSchema →
  well_typed template cellSchema →
  returned_rows (processRows cellSchema template inputs numRows σ) = Return rows →
  Forall (λ row : object, ∀ c, is_Some (row !! c) ↔ c ∈ cell_names cellSchema) rows.
Proof.
  intros _ Hwt Hrows. unfold processRows in Hrows.
  destruct (compileExecutionOrder template cellSchema) as [order|e|] eqn:Hrun; [|done..].
  rewrite processRows_loop_with_id in Hrows.
  apply (returned_rows_shape id (λ _, True)) in Hrows as [Hall _]; [|done].
  eapply Forall_impl; [done|]. simpl. intros row [Hdom _] c.
  rewrite <- elem_of_dom, Hdom, elem_of_list_to_set, (compile_reachable _ _ _ _ Hrun).
  split; [by apply well_typed_reachable|apply reachable_root].
Qed.

Lemma processRows_rows_complete_witness :
  ∃ rows,
    returned_rows (processRows BasicExample.cellSchema BasicExample.template 0 3
                     BasicExample.initial) = Return rows ∧
    Forall (λ row : object, ∀ c, is_Some (row !! c) ↔ c ∈ cell_names BasicExample.cellSchema)
      rows.
Proof.
  eexists. split; [vm_compute; reflexivity|].
  eapply (processRows_rows_complete BasicExample.cellSchema BasicExample.template 0 3
            BasicExample.initial).
  - simpl. intros Hin. apply elem_of_cons in Hin as [Hin|Hin]; [discriminate Hin|].
    apply list_elem_of_singleton in Hin. discriminate Hin.
  - apply BasicExample_well_typed.
  - vm_compute. reflexivity.
Defined.

(** X8. [processRows] leaves every object that existed before the call as it
    was, the inputs among them, whether it returns or throws; the rows it
    returns are distinct objects allocated by the call. *)
Theorem processRows_fresh_rows cellSchema template inputs numRows σ :
  let r := processRows cellSchema template inputs numRows σ in
  (∀ l, l < length (heap σ) → heap r.2 !!! l = heap σ !!! l) ∧
  (∀ rows, r.1 = Return rows →
     NoDup rows ∧ Forall (λ l, length (heap σ) ≤ l < length (heap r.2)) rows).
Proof.
  simpl. split; [apply processRows_frame|].
  intros rows Hret.
  destruct (processRows cellSchema template inputs numRows σ) as [o σ'] eqn:Hrows.
  simpl in Hret. subst o.
  destruct (compileExecutionOrder template cellSchema) as [order|e|] eqn:Hrun;
    [|compile_returned Hrun Hrows..].
  destruct (processRows_chain _ _ _ _ _ _ _ _ Hrun Hrows) as (_ & Hnodup & _).
  split; [done|].
  unfold processRows in Hrows. rewrite Hrun, processRows_loop_with_id in Hrows.
  destruct (processRows_loop_fresh _ _ _ _ _ _ _ _ _ _ Hrows) as (new & Hnew & Hfresh).
  destruct (processRows_loop_chain _ _ _ _ _ _ _ _ _ _ Hrows)
    as (_ & _ & _ & _ & _ & _ & _ & Hvalid & _); [done|apply NoDup_nil_2|done|].
  simpl in Hnew. subst new. simpl.
  apply Forall_forall. intros l Hl.
  rewrite Forall_forall in Hfresh, Hvalid. split; [by apply Hfresh|by apply Hvalid].
Qed.

Lemma processRows_fresh_rows_witness :
  let r := processRows BasicExample.cellSchema BasicExample.template 0 3
             BasicExample.initial in
  heap r.2 !!! 0 = heap BasicExample.initial !!! 0.
Proof.
  intros r.
  apply (processRows_fresh_rows BasicExample.cellSchema BasicExample.template 0 3
           BasicExample.initial).
  simpl. lia.
Defined.

(** X9. Asking for more rows does not change the earlier ones: the rows
    returned for [n] are the first [n] of the rows returned for [n + m]. *)
Theorem processRows_prefix cellSchema template inputs (n m : Z) σ rows :
  (0 ≤ n)%Z → (0 ≤ m)%Z →
  returned_rows (processRows cellSchema template inputs (n + m) σ) = Return rows →
  returned_rows (processRows cellSchema template inputs n σ)
    = Return (take (Z.to_nat n) rows).
Proof.
  intros Hn Hm Hrows. unfold processRows in *.
  destruct (compileExecutionOrder template cellSchema) as [order|e|] eqn:Hrun; [|done..].
  rewrite processRows_loop_with_id in *.
  rewrite Z2Nat.inj_add, processRows_loop_split in Hrows by done.
  destruct (processRows_loop_with id template order inputs (Z.to_nat n) [] None σ)
    as [[rows1| |] σ1] eqn:Hfirst; [|done..].
  destruct (processRows_loop_chain _ _ _ _ _ _ _ _ _ _ Hfirst)
    as (new1 & _ & Hrows1 & Hlen1 & _ & _ & _ & Hvalid1 & Hnodup1 & _);
    [done|apply NoDup_nil_2|done|].
  simpl in Hrows1. subst new1.
  destruct (processRows_loop_with id template order inputs (Z.to_nat m) rows1
              (last rows1) σ1) as [[rows2| |] σ2] eqn:Hsecond; [|done..].
  destruct (processRows_loop_chain _ _ _ _ _ _ _ _ _ _ Hsecond)
    as (new2 & _ & -> & _ & _ & _ & Hold & _); [done..|].
  simpl in *. simplify_eq. f_equal.
  rewrite fmap_app, take_app_length' by (by rewrite length_fmap).
  apply Forall_fmap_ext_1. eapply Forall_impl; [done|]. simpl.
  intros l Hl. rewrite !list_lookup_total_alt. by rewrite Hold.
Qed.

Lemma processRows_prefix_witness :
  returned_rows (processRows BasicExample.cellSchema BasicExample.template 0 2
                   BasicExample.initial)
  = Return (take (Z.to_nat 2)
              [ {[ "a" := VNumber 5; "b" := VNumber 5 ]};
                {[ "a" := VNumber 6; "b" := VNumber 6 ]};
                {[ "a" := VNumber 7; "b" := VNumber 7 ]} ]).
Proof.
  apply (processRows_prefix BasicExample.cellSchema BasicExample.template 0 2 1
           BasicExample.initial); [lia|lia|].
  vm_compute. reflexivity.
Defined.

(** X10. Errors reach the caller as they were thrown: when [processRows]
    throws, either the compiler threw that error and nothing was allocated
    or called, or the formula invoked last threw it; no formula is invoked
    after one has thrown. *)
Theorem processRows_error_provenance cellSchema template inputs numRows σ e σ' :
  processRows cellSchema template inputs numRows σ = (Throw e, σ') →
  (compileExecutionOrder template cellSchema = Throw e ∧ σ' = σ) ∨
  (∃ order call cellDef,
     compileExecutionOrder template cellSchema = Return order ∧
     last (formula_calls σ') = Some call ∧
     template !! call_cell call = Some cellDef ∧
     formula cellDef (call_args call) = inl e).
Proof.
  unfold processRows. intros Hrows.
  destruct (compileExecutionOrder template cellSchema) as [order|e0|] eqn:Hrun; [| |done].
  - right. rewrite processRows_loop_with_id in Hrows.
    destruct (processRows_loop_Throw id template order inputs _ _ _ _ _ _ Hrows)
      as (call & cellDef & H).
    + destruct (compile_Return _ _ _ Hrun) as (st & <- & Hinv & _). apply Hinv.
    + by exists order, call, cellDef.
  - left. by simplify_eq.
Qed.

Lemma processRows_error_provenance_witness :
  ∃ σ',
    processRows FailingExample.cellSchema FailingExample.template 0 2
      ConstantExample.initial = (Throw (Thrown "invalid operand"), σ') ∧
    ((compileExecutionOrder FailingExample.template FailingExample.cellSchema
        = Throw (Thrown "invalid operand") ∧ σ' = ConstantExample.initial) ∨
     (∃ order call cellDef,
        compileExecutionOrder FailingExample.template FailingExample.cellSchema
          = Return order ∧
        last (formula_calls σ') = Some call ∧
        FailingExample.template !! call_cell call = Some cellDef ∧
        formula cellDef (call_args call) = inl (Thrown "invalid operand"))).
Proof.
  eexists. split; [vm_compute; reflexivity|].
  apply (processRows_error_provenance FailingExample.cellSchema FailingExample.template
           0 2 ConstantExample.initial).
  vm_compute. reflexivity.
Defined.

(** ** evaluateRow on its own *)

(** X11. Evaluating an order on a row is evaluating a first part of it and
    then, if that completed, the rest on the same row; a failure in the
    first part is the failure of the whole. *)
Theorem evaluateRow_app template order1 order2 rowState prevRowState inputs σ :
  evaluateRow template (order1 ++ order2) rowState prevRowState inputs σ =
    match evaluateRow template order1 rowState prevRowState inputs σ with
    | (Return _, σ1) => evaluateRow template order2 rowState prevRowState inputs σ1
    | (Throw e, σ1) => (Throw e, σ1)
    | (OutOfFuel, σ1) => (OutOfFuel, σ1)
    end.
Proof.
  unfold evaluateRow. rewrite !evaluateRow_loop_with_id, evaluateRow_loop_app.
  destruct (evaluateRow_loop_with _ _ _ _ order1 _) as [[[]| |] σ1]; [|done..].
  by rewrite evaluateRow_loop_with_id.
Qed.

(** X12. A column of the order without a definition in the template makes
    [evaluateRow] throw a [TypeError] when it is reached: the columns before
    it have been evaluated and stored, the columns after it are not
    evaluated. *)
Theorem evaluateRow_undefined_column template order1 c order2 rowState prevRowState
    inputs σ σ1 :
  template !! c = None →
  evaluateRow template order1 rowState prevRowState inputs σ = (Return tt, σ1) →
  evaluateRow template (order1 ++ c :: order2) rowState prevRowState inputs σ
    = (Throw TypeError, σ1).
Proof.
  intros Hnone Hfirst. unfold evaluateRow in *.
  rewrite evaluateRow_loop_with_id in *. rewrite evaluateRow_loop_app, Hfirst.
  simpl. by rewrite Hnone.
Qed.

Lemma evaluateRow_undefined_column_witness :
  ∃ σ1,
    evaluateRow MissingExample.template ["a"; "x"] 0 None 0 ConstantExample.initial
      = (Throw TypeError, σ1) ∧
    heap σ1 !!! 0 = ({[ "a" := VUndefined ]} : object).
Proof.
  eexists. split.
  - apply (evaluateRow_undefined_column MissingExample.template ["a"] "x" []
             0 None 0 ConstantExample.initial); [reflexivity|].
    vm_compute. reflexivity.
  - vm_compute. reflexivity.
Defined.

(** X13. After a completed [evaluateRow] over an order that has no column
    named ["__proto__"], the row holds the keys it held before and the
    columns of the order; a key that is not in the order keeps the value it
    had. *)
Theorem evaluateRow_columns template executionOrder rowState prevRowState inputs σ σ' :
  "__proto__" ∉ executionOrder →
  rowState < length (heap σ) →
  evaluateRow template executionOrder rowState prevRowState inputs σ = (Return tt, σ') →
  dom (heap σ' !!! rowState)
    = dom (heap σ !!! rowState) ∪ (list_to_set executionOrder : gset string) ∧
  ∀ c, c ∉ executionOrder → (heap σ' !!! rowState) !! c = (heap σ !!! rowState) !! c.
Proof.
  intros _ Hvalid Hrun. unfold evaluateRow in Hrun.
  rewrite evaluateRow_loop_with_id in Hrun.
  split.
  - pose proof (evaluateRow_loop_shape id (λ _, True) template
                  {| ctx_prevRow := prevRowState; ctx_currRow := rowState;
                     ctx_inputs := inputs |} rowState executionOrder (λ _, I) σ Hvalid)
      as Hshape.
    rewrite Hrun in Hshape. simpl in Hshape.
    by destruct Hshape as [Hdom _]; [done|apply map_Forall_lookup|].
  - intros c Hc.
    pose proof (evaluateRow_loop_untouched id template
                  {| ctx_prevRow := prevRowState; ctx_currRow := rowState;
                     ctx_inputs := inputs |} rowState executionOrder c σ Hc) as Hkeep.
    by rewrite Hrun in Hkeep.
Qed.

Lemma evaluateRow_columns_witness :
  ∃ σ',
    dom (heap σ' !!! 0)
      = dom (heap (single {[ "z" := VNumber 9; "b" := VNumber 1 ]}) !!! 0)
        ∪ (list_to_set ["a"] : gset string) ∧
    ∀ c, c ∉ ["a"] →
      (heap σ' !!! 0) !! c
      = (heap (single {[ "z" := VNumber 9; "b" := VNumber 1 ]}) !!! 0) !! c.
Proof.
  eexists.
  apply (evaluateRow_columns BasicExample.template ["a"] 0 None 0
           (single {[ "z" := VNumber 9; "b" := VNumber 1 ]})).
  - intros Hin. apply list_elem_of_singleton in Hin. discriminate Hin.
  - simpl. lia.
  - vm_compute. reflexivity.
Defined.

(** * The earlier engine, [src/engine.ts] *)

(** X14. Row count in the earlier engine: for a non-negative [n],
    [processRows] returns exactly [n] rows when compilation succeeds and no
    formula invoked during the call fails; it never ends otherwise than by
    returning or throwing, and whenever it returns it returns exactly [n]
    rows. When the compiler throws, that error is thrown with nothing
    allocated or called, whatever [n] is. *)
Theorem Legacy_processRows_row_count schema template inputs numRows σ :
  (0 ≤ numRows)%Z →
  let r := Legacy.processRows schema template inputs numRows σ in
  r.1 ≠ OutOfFuel ∧
  (∀ rows, r.1 = Return rows → Z.of_nat (length rows) = numRows) ∧
  (∀ order, compileExecutionOrder template schema = Return order →
     no_formula_fails template σ r.2 →
     ∃ rows, r.1 = Return rows ∧ Z.of_nat (length rows) = numRows) ∧
  (∀ e, compileExecutionOrder template schema = Throw e → r = (Throw e, σ)).
Proof.
  intros Hn. simpl. unfold Legacy.processRows.
  pose proof (compile_ends_well template schema) as Hend.
  destruct (compileExecutionOrder template schema) as [order|e|] eqn:Hrun; [| |done].
  - rewrite Legacy_processRows_loop_with.
    assert (∀ rows,
              (processRows_loop_with VCellState template order inputs
                 (Z.to_nat numRows) [] None σ).1 = Return rows →
              Z.of_nat (length rows) = numRows) as Hcount.
    { intros rows Hret.
      destruct (processRows_loop_with VCellState template order inputs
                  (Z.to_nat numRows) [] None σ) as [o σ'] eqn:Hrows.
      simpl in Hret. subst o.
      destruct (processRows_loop_chain _ _ _ _ _ _ _ _ _ _ Hrows)
        as (new & _ & -> & Hlen & _); [done|apply NoDup_nil_2|done|].
      simpl. lia. }
    split_and!; [apply processRows_loop_no_OutOfFuel|done| |done].
    intros order' Horder Hall. simplify_eq.
    destruct (processRows_loop_completes VCellState template order' inputs
                (Z.to_nat numRows) σ) as [rows Hret]; [|done|].
    { destruct (compile_Return _ _ _ Hrun) as (st & <- & Hinv & _). apply Hinv. }
    exists rows. split; [done|]. by apply Hcount.
  - split_and!; [done|done|done|]. intros e' He'. by simplify_eq.
Qed.

Lemma Legacy_processRows_row_count_witness :
  ∃ rows,
    (Legacy.processRows MonthExample.schema MonthExample.template 0 3
       MonthExample.initial).1 = Return rows ∧
    Z.of_nat (length rows) = 3%Z.
Proof.
  destruct (Legacy_processRows_row_count MonthExample.schema MonthExample.template
              0 3 MonthExample.initial ltac:(lia)) as (_ & _ & Hreturns & _).
  apply (Hreturns ["month"]).
  - vm_compute. reflexivity.
  - vm_compute. reflexivity.
Defined.

(** X15. Previous-row chaining in the earlier engine: in a completed
    [processRows] every formula call made while row [i] is evaluated
    receives as [prevRow] the object of row [i - 1] as it finally is, and
    [null] for row [0]. *)
Theorem Legacy_processRows_prevRow_chaining schema template inputs numRows σ rows σ' :
  Legacy.processRows schema template inputs numRows σ = (Return rows, σ') →
  ∃ order calls,
    compileExecutionOrder template schema = Return order ∧
    NoDup rows ∧
    formula_calls σ' = formula_calls σ ++ calls ∧
    call_cell <$> calls = mjoin (replicate (Z.to_nat numRows) order) ∧
    ∀ call, call ∈ calls →
      ∃ i, rows !! i = Some (ctx_currRow (call_context call)) ∧
        prevRow (call_args call) =
          match i with
          | O => None
          | S j => (λ l, heap σ' !!! l) <$> rows !! j
          end.
Proof.
  unfold Legacy.processRows. intros Hrows.
  destruct (compileExecutionOrder template schema) as [order|e|]; [|done..].
  rewrite Legacy_processRows_loop_with in Hrows.
  destruct (processRows_loop_chain _ _ _ _ _ _ _ _ _ _ Hrows)
    as (new & calls & -> & _ & Hcalls & Hcells & _ & _ & Hnodup & Hall);
    [done|apply NoDup_nil_2|done|].
  exists order, calls. split_and!; [done..|].
  intros call Hin. destruct (Hall call Hin) as (i & _ & Hi). by exists i.
Qed.

Lemma Legacy_processRows_prevRow_chaining_witness :
  ∃ rows σ' order calls,
    Legacy.processRows ConstantExample.schema ConstantExample.template 0 2
      ConstantExample.initial = (Return rows, σ') ∧
    compileExecutionOrder ConstantExample.template ConstantExample.schema = Return order ∧
    NoDup rows ∧
    formula_calls σ' = formula_calls ConstantExample.initial ++ calls ∧
    call_cell <$> calls = mjoin (replicate (Z.to_nat 2) order) ∧
    ∀ call, call ∈ calls →
      ∃ i, rows !! i = Some (ctx_currRow (call_context call)) ∧
        prevRow (call_args call) =
          match i with
          | O => None
          | S j => (λ l, heap σ' !!! l) <$> rows !! j
          end.
Proof.
  destruct (Legacy.processRows ConstantExample.schema ConstantExample.template 0 2
              ConstantExample.initial) as [[rows| |] σ'] eqn:Hrows;
    [|by vm_compute in Hrows..].
  destruct (Legacy_processRows_prevRow_chaining _ _ _ _ _ _ _ Hrows) as (order & calls & H).
  by exists rows, σ', order, calls.
Defined.

(** X16. Frame of the earlier [evaluateRow]: of the objects that exist when
    it is called it writes none but the current row, whether it completes
    or throws. (The [{ evaluatedValue: result }] objects it stores are new
    ones.) *)
Theorem Legacy_evaluateRow_frame template executionOrder rowState prevRowState inputs σ :
  let σ' := (Legacy.evaluateRow template executionOrder rowState prevRowState inputs σ).2 in
  ∀ l, l < length (heap σ) → l ≠ rowState → heap σ' !! l = heap σ !! l.
Proof.
  unfold Legacy.evaluateRow. rewrite Legacy_evaluateRow_loop_with. simpl.
  intros l _. apply evaluateRow_loop_frame.
Qed.

(** X17. The rows returned by the earlier [processRows] depend on the heap
    only through the contents of the inputs object: two calls with inputs
    of equal contents return equal rows, or throw the same error. *)
Theorem Legacy_processRows_any_heap schema template numRows inputs1 inputs2 σ1 σ2 :
  inputs1 < length (heap σ1) → inputs2 < length (heap σ2) →
  heap σ1 !!! inputs1 = heap σ2 !!! inputs2 →
  returned_rows (Legacy.processRows schema template inputs1 numRows σ1) =
  returned_rows (Legacy.processRows schema template inputs2 numRows σ2).
Proof.
  intros H1 H2 Hinp. unfold Legacy.processRows.
  destruct (compileExecutionOrder template schema) as [order|e|]; [|done..].
  rewrite !Legacy_processRows_loop_with.
  rewrite (processRows_loop_sim id VCellState VCellState template order inputs1 inputs2)
    with (rows2 := []) (prev2 := None) (σ2 := σ2);
    [apply map_rows_id|done|apply insensitive_id|done..].
Qed.

Lemma Legacy_processRows_any_heap_witness :
  returned_rows (Legacy.processRows BasicExample.cellSchema BasicExample.template 0 3
                   BasicExample.initial) =
  returned_rows (Legacy.processRows BasicExample.cellSchema BasicExample.template 1 3
                   {| heap := [ ∅; {[ "initialValue" := VNumber 5 ]} ];
                      formula_calls := [] |}).
Proof.
  apply Legacy_processRows_any_heap; [simpl; lia|simpl; lia|reflexivity].
Defined.

Lemma Legacy_evaluateRow_frame_witness :
  let σ := {| heap := [ ∅; ∅ ]; formula_calls := [] |} in
  heap (Legacy.evaluateRow MonthExample.template ["month"] 1 None 0 σ).2 !! 0
  = heap σ !! 0.
Proof.
  intros σ.
  apply (Legacy_evaluateRow_frame MonthExample.template ["month"] 1 None 0 σ);
    simpl; lia.
Defined.

(** * toCsv *)

Lemma string_app_cons a (s1 s2 : string) : String a s1 +:+ s2 = String a (s1 +:+ s2).
Proof. reflexivity. Qed.

Lemma string_app_assoc (s1 s2 s3 : string) : (s1 +:+ s2) +:+ s3 = s1 +:+ (s2 +:+ s3).
Proof.
  induction s1 as [|a s1 IH]; [reflexivity|].
  rewrite !string_app_cons. by f_equal.
Qed.

Lemma occurrences_app c (s1 s2 : string) :
  occurrences c (s1 +:+ s2) = occurrences c s1 + occurrences c s2.
Proof.
  induction s1 as [|a s1 IH]; [reflexivity|].
  rewrite string_app_cons. simpl. rewrite IH. lia.
Qed.

Lemma occurrences_concat c sep (l : list string) k :
  Forall (λ s, occurrences c s = k) l →
  occurrences c (String.concat sep l) = length l * k + (length l - 1) * occurrences c sep.
Proof.
  induction 1 as [|x l Hx Hl IH]; simpl; [done|].
  destruct l as [|y l]; [simpl; lia|].
  rewrite !occurrences_app, IH, Hx. simpl. lia.
Qed.

(** The digits of a number hold neither comma nor line break. *)
Lemma occurrences_pretty_N_go c x : ∀ s,
  (∀ d, pretty_N_char d ≠ c) →
  occurrences c (pretty_N_go x s) = occurrences c s.
Proof.
  induction (N.lt_wf_0 x) as [x _ IH]; intros s Hc.
  destruct (decide (x = 0)%N) as [->|Hx]; [by rewrite pretty_N_go_0|].
  rewrite pretty_N_go_step by lia.
  rewrite IH; [|apply N.div_lt; lia|done]. simpl.
  destruct (decide (pretty_N_char (x `mod` 10) = c)) as [Heq|_]; [|done].
  by destruct (Hc (x `mod` 10)%N).
Qed.

Lemma plain_pretty_Z (n : Z) : plain (pretty n).
Proof.
  assert (∀ c, (∀ d, pretty_N_char d ≠ c) → c ≠ "0"%char → c ≠ "-"%char →
            occurrences c (pretty n) = 0) as Hocc.
  { intros c Hc H0 Hdash.
    assert (∀ p, occurrences c (pretty (Npos p)) = 0) as Hpos.
    { intros p. unfold pretty, pretty_N.
      destruct (decide (N.pos p = 0)%N); [done|]. by rewrite occurrences_pretty_N_go. }
    destruct n as [|p|p]; unfold pretty, pretty_Z.
    - simpl. by destruct (decide ("0"%char = c)).
    - apply Hpos.
    - rewrite occurrences_app. unfold pretty, pretty_positive. rewrite Hpos. simpl.
      by destruct (decide ("-"%char = c)). }
  split; apply Hocc; try done; intros d; unfold pretty_N_char; by repeat case_match.
Qed.

Lemma plain_join_element v :
  (∀ s, v = VString s → plain s) → plain (join_element v).
Proof.
  intros Hs. destruct v as [n|s|[]| |v]; simpl;
    [apply plain_pretty_Z|by apply Hs|by vm_compute..].
Qed.

(** The lines of the output depend on a row only through the strings of its
    values at the schema's columns. *)
Lemma toCsv_ext cellSchema rows1 rows2 σ1 σ2 :
  Forall2 (λ l1 l2, ∀ c, c ∈ cell_names cellSchema →
             join_element (get (heap σ1 !!! l1) c) = join_element (get (heap σ2 !!! l2) c))
    rows1 rows2 →
  toCsv cellSchema rows1 σ1 = toCsv cellSchema rows2 σ2.
Proof.
  intros Hrows. unfold toCsv, join. fold (cell_names cellSchema). do 2 f_equal.
  induction Hrows as [|l1 l2 rows1 rows2 Hl _ IH]; [done|].
  rewrite !fmap_cons. f_equal; [|done]. f_equal.
  apply list_fmap_ext. intros i c Hc. apply Hl. by eapply list_elem_of_lookup_2.
Qed.

(** X18. [toCsv] reads a row only at the columns of the schema: rows that
    agree on those columns give the same output, whatever else they hold. *)
Theorem toCsv_schema_columns_only cellSchema rows1 rows2 σ1 σ2 :
  Forall2 (λ l1 l2, ∀ c, c ∈ cell_names cellSchema →
             (heap σ1 !!! l1) !! c = (heap σ2 !!! l2) !! c) rows1 rows2 →
  toCsv cellSchema rows1 σ1 = toCsv cellSchema rows2 σ2.
Proof.
  intros Hrows. apply toCsv_ext. eapply Forall2_impl; [done|]. simpl.
  intros l1 l2 Hl c Hc. unfold get. by rewrite Hl.
Qed.

Lemma toCsv_schema_columns_only_witness :
  toCsv BasicExample.cellSchema [0]
    (single {[ "a" := VNumber 1; "b" := VNumber 2; "note" := VString "x" ]})
  = toCsv BasicExample.cellSchema [0] (single {[ "a" := VNumber 1; "b" := VNumber 2 ]}).
Proof.
  apply toCsv_schema_columns_only. constructor; [|constructor].
  intros c Hc. simpl in Hc.
  apply elem_of_cons in Hc as [->|Hc]; [|apply list_elem_of_singleton in Hc as ->];
    vm_compute; reflexivity.
Defined.

(** X19. For a column whose name is not one that rows inherit from
    [Object.prototype], a row that lacks it, one that holds [undefined] in
    it and one that holds the empty string are written alike, with an empty
    field. *)
Theorem toCsv_absent_is_empty cellSchema (row : object) c :
  c ∉ Object_prototype_names →
  toCsv cellSchema [0] (single (delete c row))
    = toCsv cellSchema [0] (single (<[c := VUndefined]> row)) ∧
  toCsv cellSchema [0] (single (<[c := VUndefined]> row))
    = toCsv cellSchema [0] (single (<[c := VString ""]> row)).
Proof.
  intros _.
  split; apply toCsv_ext; (constructor; [|constructor]); intros c' _; simpl; unfold get;
    (destruct (decide (c = c')) as [->|Hne];
     [by rewrite ?lookup_delete_eq, ?lookup_insert_eq
     |by rewrite ?lookup_delete_ne, ?lookup_insert_ne by done]).
Qed.

Lemma toCsv_absent_is_empty_witness :
  toCsv BasicExample.cellSchema [0]
    (single (delete "b" ({[ "a" := VNumber 1; "b" := VNumber 2 ]} : object)))
    = toCsv BasicExample.cellSchema [0]
        (single (<["b" := VUndefined]> ({[ "a" := VNumber 1; "b" := VNumber 2 ]} : object))) ∧
  toCsv BasicExample.cellSchema [0]
    (single (<["b" := VUndefined]> ({[ "a" := VNumber 1; "b" := VNumber 2 ]} : object)))
    = toCsv BasicExample.cellSchema [0]
        (single (<["b" := VString ""]> ({[ "a" := VNumber 1; "b" := VNumber 2 ]} : object))).
Proof.
  apply toCsv_absent_is_empty.
  unfold Object_prototype_names. rewrite !not_elem_of_cons.
  split_and!; try discriminate. apply not_elem_of_nil.
Defined.

(** X20. Values are written without quoting or escaping: a comma inside a
    string cannot be told from the separator, so different rows can give
    the same output. *)
Theorem toCsv_no_escaping c1 c2 t1 t2 (s1 s2 s3 : string) :
  c1 ≠ c2 →
  toCsv [ {| name := c1; type := t1 |}; {| name := c2; type := t2 |} ] [0]
    (single {[ c1 := VString (s1 +:+ "," +:+ s2); c2 := VString s3 ]})
  = toCsv [ {| name := c1; type := t1 |}; {| name := c2; type := t2 |} ] [0]
      (single {[ c1 := VString s1; c2 := VString (s2 +:+ "," +:+ s3) ]}).
Proof.
  intros Hne. unfold toCsv, join, get. simpl.
  rewrite !lookup_insert_eq, !lookup_insert_ne, !lookup_singleton_eq by done. simpl.
  by rewrite !string_app_assoc.
Qed.

Lemma toCsv_no_escaping_witness :
  toCsv BasicExample.cellSchema [0]
    (single {[ "a" := VString ("x" +:+ "," +:+ "y"); "b" := VString "z" ]})
  = toCsv BasicExample.cellSchema [0]
      (single {[ "a" := VString "x"; "b" := VString ("y" +:+ "," +:+ "z") ]}).
Proof. by apply (toCsv_no_escaping "a" "b" TNumber TNumber "x" "y" "z"). Defined.

(** X21. Without rows the output is the header line alone, with no line
    break; without columns every row still gives a line, an empty one. *)
Theorem toCsv_empty cellSchema rows σ :
  toCsv cellSchema [] σ = join (cell_names cellSchema) "," ∧
  toCsv [] rows σ = String.concat "" (replicate (length rows) newline).
Proof.
  split; [done|]. unfold toCsv, join. simpl.
  induction rows as [|row rows IH]; simpl; [done|].
  destruct rows as [|row' rows]; [done|]. simpl in *. by rewrite IH.
Qed.

(** X22. When neither the column names nor the strings held in the schema's
    columns contain a comma or a line break, the output is a grid: it has
    one line break per row, and every line, the header included, has one
    comma less than the schema has columns. Numbers, booleans and absent
    values never contain either character. *)
Theorem toCsv_grid cellSchema rows σ :
  Forall plain (cell_names cellSchema) →
  Forall (λ l, ∀ c s, c ∈ cell_names cellSchema →
            (heap σ !!! l) !! c = Some (VString s) → plain s) rows →
  occurrences "010"%char (toCsv cellSchema rows σ) = length rows ∧
  occurrences ","%char (toCsv cellSchema rows σ)
    = S (length rows) * (length cellSchema - 1).
Proof.
  intros Hnames Hrows. unfold toCsv, join. fold (cell_names cellSchema).
  set (line := λ row, String.concat ","
                 ((λ header, join_element (get (heap σ !!! row) header))
                    <$> cell_names cellSchema)).
  assert (∀ l, l ∈ rows →
            Forall plain ((λ header, join_element (get (heap σ !!! l) header))
                            <$> cell_names cellSchema)) as Hfields.
  { intros l Hl. rewrite Forall_forall in Hrows. apply Forall_fmap, Forall_forall.
    intros c Hc. simpl. apply plain_join_element. intros s Hs.
    apply (Hrows l Hl c s Hc). unfold get in Hs.
    destruct ((heap σ !!! l) !! c) as [v|]; simpl in Hs; by simplify_eq. }
  assert (∀ fields : list string, length fields = length cellSchema →
            Forall plain fields →
            occurrences "010"%char (String.concat "," fields) = 0 ∧
            occurrences ","%char (String.concat "," fields) = length cellSchema - 1)
    as Hline.
  { intros fields Hlen Hplain. split.
    - rewrite (occurrences_concat _ _ _ 0); [simpl; lia|].
      eapply Forall_impl; [done|]. by intros s [_ ?].
    - rewrite (occurrences_concat _ _ _ 0); [simpl; lia|].
      eapply Forall_impl; [done|]. by intros s [? _]. }
  assert (Forall (λ s, occurrences "010"%char s = 0 ∧
                       occurrences ","%char s = length cellSchema - 1)
            (String.concat "," (cell_names cellSchema) :: (line <$> rows))) as Hlines.
  { constructor.
    - apply Hline; [by unfold cell_names; rewrite length_fmap|done].
    - apply Forall_fmap, Forall_forall. intros l Hl. unfold line. simpl.
      apply Hline; [by rewrite length_fmap; unfold cell_names; rewrite length_fmap|].
      by apply Hfields. }
  split.
  - rewrite (occurrences_concat _ _ _ 0).
    + simpl. rewrite length_fmap. lia.
    + eapply Forall_impl; [done|]. by intros s [? _].
  - rewrite (occurrences_concat _ _ _ (length cellSchema - 1)).
    + simpl. rewrite length_fmap. lia.
    + eapply Forall_impl; [done|]. by intros s [_ ?].
Qed.

Lemma toCsv_grid_witness :
  let σ := {| heap := [ {[ "a" := VNumber 5; "b" := VNumber (-12) ]};
                        {[ "a" := VBoolean true ]} ];
              formula_calls := [] |} in
  occurrences "010"%char (toCsv BasicExample.cellSchema [0; 1] σ) = 2 ∧
  occurrences ","%char (toCsv BasicExample.cellSchema [0; 1] σ) = 3 * (2 - 1).
Proof.
  intros σ. apply (toCsv_grid BasicExample.cellSchema [0; 1] σ).
  - constructor; [by vm_compute|]. constructor; [by vm_compute|constructor].
  - constructor; [|constructor; [|constructor]]; intros c s Hc Hs; simpl in Hc;
      (apply elem_of_cons in Hc as [->|Hc]; [|apply list_elem_of_singleton in Hc as ->]);
      vm_compute in Hs; discriminate Hs.
Defined.

(** X23. The table written for the rows of [processRows] depends on the
    heap only through the contents of the inputs object: two runs with
    inputs of equal contents give the same output. *)
Theorem toCsv_processRows_any_heap cellSchema template numRows inputs1 inputs2
    σ1 σ2 rows1 σ1' rows2 σ2' :
  inputs1 < length (heap σ1) → inputs2 < length (heap σ2) →
  heap σ1 !!! inputs1 = heap σ2 !!! inputs2 →
  processRows cellSchema template inputs1 numRows σ1 = (Return rows1, σ1') →
  processRows cellSchema template inputs2 numRows σ2 = (Return rows2, σ2') →
  toCsv cellSchema rows1 σ1' = toCsv cellSchema rows2 σ2'.
Proof.
  intros H1 H2 Hinp Hrun1 Hrun2.
  pose proof (processRows_any_heap cellSchema template numRows _ _ _ _ H1 H2 Hinp) as Hsame.
  rewrite Hrun1, Hrun2 in Hsame. simpl in Hsame. injection Hsame as Hsame.
  apply toCsv_ext. apply list_eq_Forall2 in Hsame. rewrite Forall2_fmap in Hsame.
  eapply Forall2_impl; [exact Hsame|]. simpl. intros l1 l2 Heq c _. by rewrite Heq.
Qed.

Lemma toCsv_processRows_any_heap_witness :
  ∃ rows1 σ1' rows2 σ2',
    processRows BasicExample.cellSchema BasicExample.template 0 3 BasicExample.initial
      = (Return rows1, σ1') ∧
    processRows BasicExample.cellSchema BasicExample.template 1 3
      {| heap := [ ∅; {[ "initialValue" := VNumber 5 ]} ]; formula_calls := [] |}
      = (Return rows2, σ2') ∧
    toCsv BasicExample.cellSchema rows1 σ1' = toCsv BasicExample.cellSchema rows2 σ2'.
Proof.
  eexists _, _, _, _. split_and!; [vm_compute; reflexivity..|].
  eapply (toCsv_processRows_any_heap BasicExample.cellSchema BasicExample.template 3 0 1
            BasicExample.initial
            {| heap := [ ∅; {[ "initialValue" := VNumber 5 ]} ]; formula_calls := [] |});
    [simpl; lia|simpl; lia|reflexivity|vm_compute; reflexivity..].
Defined.
